(** * The navigation router of the devtools extension

    A shallow embedding of [createRouter] (router.ts): the router state and
    its reducer, the four actions of the router slice, the leave/enter
    interception pipeline that [routerReaction] runs inside [concatMap], and
    the bootstrap reaction.

    The modules [./url], [./route], [./router-config], [./route-matcher] and
    [@lib/store] are imported by the router but are not part of the code under
    study; what the router needs from them is taken as a parameter
    ([RouterTypes], [RouteMatcher], [appReducer]) or modelled from the
    specification where stated. *)

From Stdlib Require Import List Bool Arith Lia String Ascii DecimalString.
Import ListNotations.

Set Implicit Arguments.

(** [o ++? l] puts the value of [o], if any, in front of [l]. *)
Definition opt_cons (A : Type) (o : option A) (l : list A) : list A :=
  match o with
  | Some a => a :: l
  | None => l
  end.
Infix "++?" := opt_cons (at level 60, right associativity).

(** ** External value types

    [Url] and [Route] are declared in [./url] and [./route].  The router only
    reads [url.path] and [route.routeConfigId], and calls [createUrl()] with
    no argument.  [AppAction] stands for the actions of the other slices of the
    store, [App] for their state, [Exn] for the values a hook may throw. *)
Class RouterTypes := {
  Url : Type;
  Path : Type;
  path : Url -> Path;
  createUrl : Url;
  Route : Type;
  routeConfigId : Route -> nat;
  AppAction : Type;
  App : Type;
  Exn : Type
}.

Section Model.
Context `{RouterTypes}.

(** [interface RouterState<DATA> { url: Url; routes: Route<DATA>[] }] *)
Record RouterState := {
  url : Url;
  routes : list Route
}.

(** [routerActions = createActions<{ Navigate; InterceptLeaveRedirect;
    InterceptEnterRedirect; NavigationComplete }>(routerSlice)].  An [Action]
    of the store is one of these four or an action of another slice. *)
Inductive Action :=
| Navigate (u : Url)
| InterceptLeaveRedirect (u : Url)
| InterceptEnterRedirect (u : Url)
| NavigationComplete (u : Url) (rs : list Route)
| Other (a : AppAction).

(** Modelled from the spec: the store of [@lib/store], as far as the router
    uses it.  The store holds the router slice next to the state of the other
    slices; [store.get(selector)] is a synchronous read of that state. *)
Record Store := {
  router : RouterState;
  app : App
}.

(** A call of a hook either returns or throws. *)
Inductive Completion (A : Type) :=
| Returned (a : A)
| Threw (e : Exn).
Arguments Returned {A} a.
Arguments Threw {A} e.

(** The result type [boolean | Url] of [interceptLeave] / [interceptEnter]. *)
Inductive Guard :=
| GBool (b : bool)
| GUrl (u : Url).

(** A hook is called as [hook(store, prevUrl, route)].  It is taken as a
    function of the state that the store holds at the call: it reads the
    store and does not dispatch into it. *)
Definition InterceptHook := Store -> Url -> Route -> Completion Guard.
Definition DispatchHook := Store -> Url -> Route -> Completion Action.

(** The part of [RouteConfig] ([./router-config]) that the router uses: the
    four optional hooks. *)
Record RouteConfig := {
  interceptLeave : option InterceptHook;
  interceptEnter : option InterceptHook;
  dispatchOnLeave : option DispatchHook;
  dispatchOnEnter : option DispatchHook
}.

(** The two methods of [RouteMatcher] ([./route-matcher]) that the router
    calls: [match(path)] and [getRouteConfig(id)], the latter returning
    [undefined] for an id without entry. *)
Record RouteMatcher := {
  matchPath : Path -> list Route;
  getRouteConfig : nat -> option RouteConfig
}.

(** ** The reducer *)

(** The initial state of [createReducer(routerSlice, { url: createUrl(),
    routes: [] })]. *)
Definition initialState : RouterState :=
  {| url := createUrl; routes := [] |}.

(** [routerReducer]: the only handler added is the one for
    [NavigationComplete]; a reducer built by [createReducer] leaves its state
    as it is on an action without handler. *)
Definition routerReducer (state : RouterState) (action : Action) : RouterState :=
  match action with
  | NavigationComplete u rs => {| url := u; routes := rs |}
  | _ => state
  end.

(** ** One pass of the pipeline *)

(** What the function given to [concatMap] does with one trigger: it returns
    an observable that emits a list of actions synchronously ([EMPTY],
    [of(...)]), or it throws. *)
Inductive Emission :=
| Emits (acts : list Action)
| Throws (e : Exn).

Definition EMPTY : Emission := Emits [].
Definition of_ (acts : list Action) : Emission := Emits acts.

(** State of a [for ... of] loop after a number of iterations: still running
    with the actions pushed so far, or left by [return] / [throw]. *)
Inductive Loop :=
| Continue (pushed : list Action)
| Return (r : Emission).

Variable routeMatcher : RouteMatcher.

(** [routeConfig?.hook]: [None] when the config is [undefined] or has no
    such hook. *)
Definition hookOf (A : Type) (hook : RouteConfig -> option A)
    (routeConfig : option RouteConfig) : option A :=
  match routeConfig with
  | Some config => hook config
  | None => None
  end.

(** The body of both [for] loops; they differ in the two hooks read from the
    config and in the redirect action. *)
Definition loopBody
    (intercept : RouteConfig -> option InterceptHook)
    (dispatch : RouteConfig -> option DispatchHook)
    (redirect : Url -> Action)
    (store : Store) (prevUrl : Url) (route : Route)
    (pushed : list Action) : Loop :=
  let routeConfig := getRouteConfig routeMatcher (routeConfigId route) in
  let collect :=
    match hookOf dispatch routeConfig with
    | Some hook =>
        match hook store prevUrl route with
        | Returned a => Continue (pushed ++ [a])
        | Threw e => Return (Throws e)
        end
    | None => Continue pushed
    end in
  match hookOf intercept routeConfig with
  | Some hook =>
      match hook store prevUrl route with
      | Returned (GBool true) => collect
      | Returned (GBool false) => Return EMPTY
      | Returned (GUrl result) => Return (of_ [redirect result])
      | Threw e => Return (Throws e)
      end
  | None => collect
  end.

Fixpoint forOf
    (body : Route -> list Action -> Loop)
    (rs : list Route) (pushed : list Action) : Loop :=
  match rs with
  | [] => Continue pushed
  | route :: rest =>
      match body route pushed with
      | Continue pushed' => forOf body rest pushed'
      | Return r => Return r
      end
  end.

(** [for (const route of prevRoutes) { ... }], lines 91-116. *)
Definition leaveLoop (store : Store) (prevUrl : Url) :=
  forOf (loopBody interceptLeave dispatchOnLeave InterceptLeaveRedirect
           store prevUrl).

(** [for (const route of nextRoutes) { ... }], lines 122-147.  The hooks are
    called with [prevUrl], as in the source. *)
Definition enterLoop (store : Store) (prevUrl : Url) :=
  forOf (loopBody interceptEnter dispatchOnEnter InterceptEnterRedirect
           store prevUrl).

(** The function given to [concatMap], for a trigger whose payload is
    [nextUrl]. *)
Definition pipeline (store : Store) (nextUrl : Url) : Emission :=
  let prevUrl := url (router store) in
  let prevRoutes := routes (router store) in
  match leaveLoop store prevUrl prevRoutes [] with
  | Return r => r
  | Continue pushedOnLeave =>
      let nextRoutes := matchPath routeMatcher (path nextUrl) in
      match enterLoop store prevUrl nextRoutes [] with
      | Return r => r
      | Continue pushedOnEnter =>
          of_ (pushedOnLeave
               ++ NavigationComplete nextUrl nextRoutes :: pushedOnEnter)
      end
  end.

(** [filterActions([Navigate, InterceptLeaveRedirect,
    InterceptEnterRedirect])]: the payload url of a trigger. *)
Definition triggerUrl (action : Action) : option Url :=
  match action with
  | Navigate u | InterceptLeaveRedirect u | InterceptEnterRedirect u => Some u
  | _ => None
  end.

Definition isTrigger (action : Action) : bool :=
  match triggerUrl action with Some _ => true | None => false end.

(** The first reaction of [routerReaction] on one action of [action$]: an
    action that is filtered out produces nothing. *)
Definition routerReaction (store : Store) (action : Action) : Emission :=
  match triggerUrl action with
  | Some nextUrl => pipeline store nextUrl
  | None => EMPTY
  end.

(** The second reaction: [of(routerActions.Navigate({ url: createUrl() }))],
    emitted once when the reaction is subscribed, whatever [action$] carries. *)
Definition bootstrapReaction : list Action := [Navigate createUrl].

(** The facade: [router.navigate(url)]. *)
Definition navigate (u : Url) : Action := Navigate u.

(** ** The store and the serialised stream of triggers *)

(** The reducers of the other slices of the store. *)
Variable appReducer : App -> Action -> App.

(** Modelled from the spec: [store.dispatch(action)] of [@lib/store] folds the
    action into every slice through its reducer. *)
Definition storeReducer (store : Store) (action : Action) : Store :=
  {| router := routerReducer (router store) action;
     app := appReducer (app store) action |}.

(** The store together with the triggers that [concatMap] holds back while a
    pass is in flight: [concatMap] runs one inner observable at a time and
    buffers the source values that arrive in the meantime, in arrival order. *)
Record Machine := {
  mStore : Store;
  buffer : list Action
}.

(** Modelled from the spec: an action dispatched while a pass is in flight or
    queued is folded into the state at once; if [filterActions] lets it
    through, [concatMap] appends it to its buffer. *)
Definition dispatch (m : Machine) (action : Action) : Machine :=
  {| mStore := storeReducer (mStore m) action;
     buffer := buffer m ++ (if isTrigger action then [action] else []) |}.

Inductive Step :=
| Idle
| Stepped (m : Machine)
| Crashed (e : Exn) (store : Store).

(** [concatMap] takes the oldest buffered trigger, runs the pass on the store
    as it is now, and the actions of the inner observable are dispatched in
    the order of their emission.  A throw inside the pass errors the stream of
    the reaction; nothing was emitted, so the store is as it was. *)
Definition step (m : Machine) : Step :=
  match buffer m with
  | [] => Idle
  | trigger :: rest =>
      match routerReaction (mStore m) trigger with
      | Emits acts =>
          Stepped (fold_left dispatch acts
                     {| mStore := mStore m; buffer := rest |})
      | Throws e => Crashed e (mStore m)
      end
  end.

(** How a run ends: no trigger is left, or the fuel is, or a pass threw. *)
Inductive Run :=
| Settled (m : Machine)
| Unsettled (m : Machine)
| Failed (e : Exn) (store : Store).

(** The triggers whose pass runs, in order, within [fuel] passes (a cycle of
    redirects never settles), and how the run ends. *)
Fixpoint passes (fuel : nat) (m : Machine) : list Action * Run :=
  match fuel with
  | 0 => ([], match buffer m with [] => Settled m | _ => Unsettled m end)
  | S fuel' =>
      match step m with
      | Idle => ([], Settled m)
      | Stepped m' =>
          let (order, final) := passes fuel' m' in
          (hd_error (buffer m) ++? order, final)
      | Crashed e store => (hd_error (buffer m) ++? [], Failed e store)
      end
  end.


(** The machine at construction: the initial state of the reducer, and the
    bootstrap reaction's emission dispatched into it. *)
Definition initialMachine (app0 : App) : Machine :=
  fold_left dispatch bootstrapReaction
    {| mStore := {| router := initialState; app := app0 |}; buffer := [] |}.

(** ** Vocabulary of the claims *)

(** The committed hierarchy agrees with the matcher on the committed url. *)
Definition Consistent (state : RouterState) : Prop :=
  routes state = matchPath routeMatcher (path (url state)).

Definition isCommit (action : Action) : bool :=
  match action with
  | NavigationComplete _ _ => true
  | _ => false
  end.

Inductive Phase := Leave | Enter.

Definition interceptOf (phase : Phase) : RouteConfig -> option InterceptHook :=
  match phase with Leave => interceptLeave | Enter => interceptEnter end.

Definition dispatchOf (phase : Phase) : RouteConfig -> option DispatchHook :=
  match phase with Leave => dispatchOnLeave | Enter => dispatchOnEnter end.

Definition redirectOf (phase : Phase) : Url -> Action :=
  match phase with
  | Leave => InterceptLeaveRedirect
  | Enter => InterceptEnterRedirect
  end.

(** The hierarchy a phase walks over: the committed one on leave, the
    candidate one on enter. *)
Definition hierarchyOf (phase : Phase) (store : Store) (nextUrl : Url)
    : list Route :=
  match phase with
  | Leave => routes (router store)
  | Enter => matchPath routeMatcher (path nextUrl)
  end.

Definition bodyOf (phase : Phase) (store : Store)
    : Route -> list Action -> Loop :=
  loopBody (interceptOf phase) (dispatchOf phase) (redirectOf phase)
    store (url (router store)).

(** The call [routeConfig.interceptX(store, prevUrl, route)] of a phase, when
    the route has such a hook. *)
Definition guardCall (phase : Phase) (store : Store) (route : Route)
    : option (Completion Guard) :=
  option_map (fun hook => hook store (url (router store)) route)
    (hookOf (interceptOf phase)
       (getRouteConfig routeMatcher (routeConfigId route))).

(** The call [routeConfig.dispatchOnX(store, prevUrl, route)] of a phase. *)
Definition dispatchCall (phase : Phase) (store : Store) (route : Route)
    : option (Completion Action) :=
  option_map (fun hook => hook store (url (router store)) route)
    (hookOf (dispatchOf phase)
       (getRouteConfig routeMatcher (routeConfigId route))).

(** The pass for [nextUrl] arrives at the iteration of [route] in the loop of
    [phase], with [pushed] collected so far in that loop: every earlier
    iteration fell through, and on enter the leave loop ran to its end. *)
Definition Reaches (phase : Phase) (store : Store) (nextUrl : Url)
    (route : Route) (pushed : list Action) : Prop :=
  (phase = Enter ->
     exists pushedOnLeave,
       forOf (bodyOf Leave store) (routes (router store)) []
         = Continue pushedOnLeave)
  /\ exists before after,
       hierarchyOf phase store nextUrl = before ++ route :: after
       /\ forOf (bodyOf phase store) before [] = Continue pushed.

(** During the pass, the guard of [route] is called and completes with [c]. *)
Definition GuardAnswers (phase : Phase) (store : Store) (nextUrl : Url)
    (route : Route) (pushed : list Action) (c : Completion Guard) : Prop :=
  Reaches phase store nextUrl route pushed
  /\ guardCall phase store route = Some c.

(** The guard of [route] does not stand in the way: no hook, or [true]. *)
Definition guardLets (phase : Phase) (store : Store) (route : Route) : Prop :=
  guardCall phase store route = None
  \/ guardCall phase store route = Some (Returned (GBool true)).

(** During the pass, the dispatch hook of [route] is called and completes
    with [c]. *)
Definition DispatchAnswers (phase : Phase) (store : Store) (nextUrl : Url)
    (route : Route) (pushed : list Action) (c : Completion Action) : Prop :=
  Reaches phase store nextUrl route pushed
  /\ guardLets phase store route
  /\ dispatchCall phase store route = Some c.

(** Some hook called during the pass throws [e]. *)
Definition HookThrows (store : Store) (nextUrl : Url) (e : Exn) : Prop :=
  exists phase route pushed,
    GuardAnswers phase store nextUrl route pushed (Threw e)
    \/ DispatchAnswers phase store nextUrl route pushed (Threw e).

(** The dispatch hook of [route] returns normally, if there is one. *)
Definition dispatchReturns (phase : Phase) (store : Store) (route : Route)
    : Prop :=
  match dispatchCall phase store route with
  | Some (Threw _) => False
  | _ => True
  end.

(** The actions that the [dispatchOnLeave] / [dispatchOnEnter] hooks of a
    hierarchy produce, in route order: the specification's [leaveActions] and
    [enterActions]. *)
Definition produced (phase : Phase) (store : Store) (rs : list Route)
    : list Action :=
  flat_map
    (fun route =>
       match dispatchCall phase store route with
       | Some (Returned a) => [a]
       | _ => []
       end) rs.

(** No dispatch hook of the registry hands back the router's own commit
    action: [NavigationComplete] is emitted by the pipeline only. *)
Definition HooksNeverCommit : Prop :=
  forall phase store route a,
    dispatchCall phase store route = Some (Returned a) -> isCommit a = false.


(** Every run that starts in [store] with the single trigger [trigger] and
    settles ends with [u] as the committed url. *)
Definition EndsAt (store : Store) (trigger : Action) (u : Url) : Prop :=
  forall fuel m,
    snd (passes fuel {| mStore := store; buffer := [trigger] |}) = Settled m ->
    url (router (mStore m)) = u.

End Model.

Arguments Idle {_}.
Arguments GBool {_} b.
Arguments Threw {_ A} e.

(** ** A registry to run the definitions on

    Urls are lists of path segments, routes are their config ids, the other
    slices keep a log of the application actions they saw. *)
Module Demo.

#[global] Instance types : RouterTypes := {|
  Url := list string;
  Path := list string;
  path := fun u => u;
  createUrl := [];
  Route := nat;
  routeConfigId := fun r => r;
  AppAction := string;
  App := list string;
  Exn := string
|}.

Definition plain : RouteConfig :=
  {| interceptLeave := None; interceptEnter := None;
     dispatchOnLeave := None; dispatchOnEnter := None |}.

Definition announce (name : string) : DispatchHook :=
  fun _ _ _ => Returned (Other name).

Definition answer (g : Guard) : InterceptHook :=
  fun _ _ _ => Returned g.

(** Route 1 announces leaving and entering; 2 refuses entry; 3 and 8 redirect
    entry to [/a], 4 to [/b]; the enter hook of 5 throws; 6 refuses to be
    left; 9 redirects leaving to [/c]; 7 is matched but has no config. *)
Definition registry (id : nat) : option RouteConfig :=
  match id with
  | 1 => Some {| interceptLeave := None; interceptEnter := None;
                 dispatchOnLeave := Some (announce "leftA");
                 dispatchOnEnter := Some (announce "enteredA") |}
  | 2 => Some {| interceptLeave := None;
                 interceptEnter := Some (answer (GBool false));
                 dispatchOnLeave := None; dispatchOnEnter := None |}
  | 3 => Some {| interceptLeave := None;
                 interceptEnter := Some (answer (GUrl ["a"%string]));
                 dispatchOnLeave := None; dispatchOnEnter := None |}
  | 4 => Some {| interceptLeave := None;
                 interceptEnter := Some (answer (GUrl ["b"%string]));
                 dispatchOnLeave := None; dispatchOnEnter := None |}
  | 5 => Some {| interceptLeave := None; interceptEnter := None;
                 dispatchOnLeave := None;
                 dispatchOnEnter := Some (fun _ _ _ => Threw "boom"%string) |}
  | 6 => Some {| interceptLeave := Some (answer (GBool false));
                 interceptEnter := None;
                 dispatchOnLeave := None; dispatchOnEnter := None |}
  | 8 => Some {| interceptLeave := None;
                 interceptEnter := Some (answer (GUrl ["a"%string]));
                 dispatchOnLeave := None; dispatchOnEnter := None |}
  | 9 => Some {| interceptLeave := Some (answer (GUrl ["c"%string]));
                 interceptEnter := None;
                 dispatchOnLeave := None; dispatchOnEnter := None |}
  | _ => None
  end.

Definition hierarchy (p : list string) : list nat :=
  match p with
  | ["a"] => [1]
  | ["b"] => [2]
  | ["c"] => [3]
  | ["d"] => [4]
  | ["e"] => [5]
  | ["f"] => [6]
  | ["g"] => [7]
  | ["a"; "x"] => [1; 8]
  | ["a"; "k"] => [1; 9]
  | _ => []
  end%string.

Definition matcher : RouteMatcher :=
  {| matchPath := hierarchy; getRouteConfig := registry |}.

Definition log (seen : list string) (action : Action) : list string :=
  match action with
  | Other name => seen ++ [name]
  | _ => seen
  end.

Definition fresh : Store := {| router := initialState; app := [] |}.

(** The store after a visit of [p], with nothing logged. *)
Definition at_ (p : list string) : Store :=
  {| router := {| url := p; routes := hierarchy p |}; app := [] |}.

Definition queue (store : Store) (triggers : list Action) : Machine :=
  {| mStore := store; buffer := triggers |}.

(** [Navigate /c] and then [Navigate /g], both waiting in the buffer. *)
Definition backToBack : Machine :=
  queue fresh [Navigate ["c"%string]; Navigate ["g"%string]].

End Demo.

(** ** A second registry

    The registry above, with two parameter routes ([/user/:id] behind route 2,
    which refuses entry, and [/item/:id] behind route 11, whose guard lets and
    whose enter hook announces) and with route 10 at [/h], whose
    [dispatchOnEnter] hands back a [NavigationComplete] of its own. *)
Module Demo2.

Definition registry (id : nat) : option RouteConfig :=
  match id with
  | 10 => Some {| interceptLeave := None; interceptEnter := None;
                  dispatchOnLeave := None;
                  dispatchOnEnter :=
                    Some (fun _ _ _ =>
                            Returned
                              (NavigationComplete ["z"%string] [42])) |}
  | 11 => Some {| interceptLeave := None;
                  interceptEnter := Some (Demo.answer (GBool true));
                  dispatchOnLeave := None;
                  dispatchOnEnter := Some (Demo.announce "enteredItem") |}
  | _ => Demo.registry id
  end.

Definition hierarchy (p : list string) : list nat :=
  match p with
  | ["h"] => [10]
  | ["user"; _] => [2]
  | ["item"; _] => [11]
  | _ => Demo.hierarchy p
  end%string.

Definition matcher : RouteMatcher :=
  {| matchPath := hierarchy; getRouteConfig := registry |}.

End Demo2.

(** * The insights slice

    [insightsReducer] and the selectors over it (store/insights.ts,
    selectors/insights-selectors.ts).  [ObservableState], [SubscriberState]
    and the event of [EventSelected] are declared in [@app/protocols]; the
    reducer reads [state.ref.id] and [event.time] only. *)
Module Insights.
Section Slice.
Variables ObservableState SubscriberState Event : Type.
Variable observableRefId : ObservableState -> nat.
Variable subscriberRefId : SubscriberState -> nat.
Variable eventTime : Event -> nat.

(** [interface InsightsState]; a [Record<number, X>] is read and written by
    key only, and is taken as the function from keys to the value stored. *)
Record InsightsState := {
  time : nat;
  subscribers : nat -> option SubscriberState;
  observables : nat -> option ObservableState
}.

(** The three actions with a handler, whose payload [state] may be
    [undefined], and any other action of the store. *)
Inductive InsightsAction :=
| ObservableStateLoaded (state : option ObservableState)
| SubscriberStateLoaded (state : option SubscriberState)
| EventSelected (event : Event)
| Unhandled.

(** [record[key] = value] *)
Definition assign (V : Type) (record : nat -> option V) (key : nat)
    (value : V) : nat -> option V :=
  fun k => if Nat.eqb k key then Some value else record k.

Definition initialInsights : InsightsState :=
  {| time := 0;
     subscribers := fun _ => None;
     observables := fun _ => None |}.

Definition insightsReducer (state : InsightsState) (action : InsightsAction)
    : InsightsState :=
  match action with
  | ObservableStateLoaded (Some observableState) =>
      {| time := time state;
         subscribers := subscribers state;
         observables :=
           assign (observables state) (observableRefId observableState)
             observableState |}
  | SubscriberStateLoaded (Some subscriberState) =>
      {| time := time state;
         subscribers :=
           assign (subscribers state) (subscriberRefId subscriberState)
             subscriberState;
         observables := observables state |}
  | EventSelected event =>
      {| time := eventTime event;
         subscribers := subscribers state;
         observables := observables state |}
  | _ => state
  end.

(** [observableStateSelector(observableId)] and
    [subscriberStateSelector(subscriberId)] *)
Definition observableStateSelector (observableId : nat)
    (insights : InsightsState) : option ObservableState :=
  observables insights observableId.

Definition subscriberStateSelector (subscriberId : nat)
    (insights : InsightsState) : option SubscriberState :=
  subscribers insights subscriberId.

(** The action stores an observable state under [id]. *)
Definition loadsObservable (id : nat) (action : InsightsAction) : bool :=
  match action with
  | ObservableStateLoaded (Some observableState) =>
      Nat.eqb (observableRefId observableState) id
  | _ => false
  end.

Definition loadsSubscriber (id : nat) (action : InsightsAction) : bool :=
  match action with
  | SubscriberStateLoaded (Some subscriberState) =>
      Nat.eqb (subscriberRefId subscriberState) id
  | _ => false
  end.

Definition selectsEvent (action : InsightsAction) : bool :=
  match action with
  | EventSelected _ => true
  | _ => false
  end.

(** Every stored state sits under the id of its own ref. *)
Definition KeyedByRef (state : InsightsState) : Prop :=
  (forall id o, observables state id = Some o -> observableRefId o = id)
  /\ (forall id s, subscribers state id = Some s -> subscriberRefId s = id).

End Slice.

Arguments ObservableStateLoaded {_ _ _} state.
Arguments SubscriberStateLoaded {_ _ _} state.
Arguments EventSelected {_ _ _} event.
Arguments Unhandled {_ _ _}.

End Insights.

(** * The label of a source location

    [getLocationStrings] of the subscriber page
    (subscriber-page/subscriber-graph-node-renderer.tsx). *)
Module LocationStrings.

(** The location of [@rxjs-insights/core] that the function reads; [line]
    and [column] are whole numbers. *)
Record Location := {
  file : string;
  line : nat;
  column : nat
}.

Record Locations := {
  generatedLocation : option Location
}.

Record Strings := {
  short : string;
  long : string
}.

(** [s.split(separator)] for a separator of one character: the pieces
    between the separators, at least one piece. *)
Fixpoint split (separator : ascii) (s : string) : list string :=
  match s with
  | EmptyString => [EmptyString]
  | String c rest =>
      if Ascii.eqb c separator then EmptyString :: split separator rest
      else
        match split separator rest with
        | piece :: pieces => String c piece :: pieces
        | [] => [String c EmptyString]
        end
  end.

(** [array.at(-1)]: the last element, [undefined] for an empty array. *)
Definition atLast (parts : list string) : option string :=
  match parts with
  | [] => None
  | _ => Some (last parts EmptyString)
  end.

(** A value inside a template literal: a string as it is, [undefined] as
    the word, a whole number in decimal digits. *)
Definition shown (part : option string) : string :=
  match part with
  | Some s => s
  | None => "undefined"
  end.

Definition digits (n : nat) : string :=
  NilEmpty.string_of_uint (Nat.to_uint n).

Definition getLocationStrings (locations : Locations) : option Strings :=
  let location :=
    match generatedLocation locations with
    | Some l => Some l
    | None => generatedLocation locations
    end in
  match location with
  | Some l =>
      Some {| short := shown (atLast (split "/" (file l)))
                       ++ ":" ++ digits (line l);
              long := file l ++ ":" ++ digits (line l)
                      ++ ":" ++ digits (column l) |}
  | None => None
  end.

(** The character occurs in the string. *)
Fixpoint occurs (c : ascii) (s : string) : bool :=
  match s with
  | EmptyString => false
  | String c' rest => Ascii.eqb c' c || occurs c rest
  end.

End LocationStrings.

(** * A node of the subscribers graph

    The root test of the view model and the context menu of
    [SubscriberGraphNodeRenderer] on the target page
    (target-page/subscriber-graph-node-renderer.tsx). *)
Module GraphNode.

(** [key.startsWith(prefix)] and [key.endsWith(suffix)] *)
Definition startsWith (searched s : string) : bool := String.prefix searched s.

Fixpoint endsWith (searched s : string) : bool :=
  String.eqb s searched
  || match s with
     | EmptyString => false
     | String _ rest => endsWith searched rest
     end.

(** [isRoot = node.key.startsWith('<') && node.key.endsWith('>')] *)
Definition isRootKey (key : string) : bool :=
  startsWith "<" key && endsWith ">" key.

Section Node.
Variables Target Located Coordinate : Type.

(** The fields of the view model that the handlers read; [location] is
    [undefined] or not. *)
Record ViewModel := {
  rootTarget : Target;
  rootTargetKey : string;
  target : Target;
  targetKey : string;
  location : option Located;
  isRoot : bool;
  isCaller : bool;
  isExpanded : bool
}.

(** The fields of the mouse event that the handlers read. *)
Record MouseEvent := {
  clientX : Coordinate;
  clientY : Coordinate;
  ctrlKey : bool;
  shiftKey : bool
}.

Record Position := {
  top : Coordinate;
  left : Coordinate
}.

(** [interface MenuState]: every field but [open] is optional. *)
Record MenuState := {
  open : bool;
  position : option Position;
  focusOptionVisible : option bool;
  expandOptionVisible : option bool;
  collapseOptionVisible : option bool;
  expandAllOptionVisible : option bool;
  collapseAllOptionVisible : option bool;
  goToSourceOptionVisible : option bool
}.

(** [useState<MenuState>({ open: false })] *)
Definition closedMenu : MenuState :=
  {| open := false; position := None;
     focusOptionVisible := None; expandOptionVisible := None;
     collapseOptionVisible := None; expandAllOptionVisible := None;
     collapseAllOptionVisible := None; goToSourceOptionVisible := None |}.

(** The body of [onContextMenuOpen]: the state it sets, from the view model
    that its closure holds (see [useCallback] below) and the event. *)
Definition onContextMenuOpen (vm : ViewModel) (event : MouseEvent)
    : MenuState :=
  {| open := true;
     position := Some {| top := clientY event; left := clientX event |};
     focusOptionVisible := Some (negb (isCaller vm) && negb (isRoot vm));
     expandOptionVisible := Some (negb (isCaller vm) && negb (isExpanded vm));
     collapseOptionVisible := Some (negb (isCaller vm) && isExpanded vm);
     expandAllOptionVisible := Some (negb (isCaller vm));
     collapseAllOptionVisible := Some (negb (isCaller vm));
     goToSourceOptionVisible :=
       Some (match location vm with Some _ => true | None => false end) |}.

(** [setMenu({ ...menu, open: false })] *)
Definition onContextMenuClose (menu : MenuState) : MenuState :=
  {| open := false;
     position := position menu;
     focusOptionVisible := focusOptionVisible menu;
     expandOptionVisible := expandOptionVisible menu;
     collapseOptionVisible := collapseOptionVisible menu;
     expandAllOptionVisible := expandAllOptionVisible menu;
     collapseAllOptionVisible := collapseAllOptionVisible menu;
     goToSourceOptionVisible := goToSourceOptionVisible menu |}.

(** The entries of the menu whose handlers dispatch an action. *)
Inductive Entry := Focus | DoExpand | DoCollapse | DoExpandAll | DoCollapseAll.

(** [{menu.xOptionVisible && <MenuItem ...>}]: the entry is rendered when the
    flag is truthy. *)
Definition truthy (flag : option bool) : bool :=
  match flag with
  | Some b => b
  | None => false
  end.

Definition rendered (menu : MenuState) (entry : Entry) : bool :=
  truthy
    match entry with
    | Focus => focusOptionVisible menu
    | DoExpand => expandOptionVisible menu
    | DoCollapse => collapseOptionVisible menu
    | DoExpandAll => expandAllOptionVisible menu
    | DoCollapseAll => collapseAllOptionVisible menu
    end.

(** [useCallback(fn, deps)] over the renders of the component: the first
    render keeps its [fn]; a later render keeps the callback held so far when
    every dependency is the same as at the render that created it, and its
    own [fn] otherwise.  [fn] closes over the view model of its render, so
    the callback in use after the renders [first :: later] closes over
    [captured first later]. *)
Definition useCallback (D : Type) (deps : ViewModel -> D)
    (same : D -> D -> bool) (held vm : ViewModel) : ViewModel :=
  if same (deps held) (deps vm) then held else vm.

Definition captured (D : Type) (deps : ViewModel -> D)
    (same : D -> D -> bool) (first : ViewModel) (later : list ViewModel)
    : ViewModel :=
  fold_left (useCallback deps same) later first.

(** The dependencies [[setMenu, vm.isRoot, vm.isExpanded]] of
    [onContextMenuOpen]: the setter of [useState] is the same at every
    render, the two flags are compared as booleans. *)
Definition menuDeps (vm : ViewModel) : bool * bool :=
  (isRoot vm, isExpanded vm).

Definition sameMenuDeps (d d' : bool * bool) : bool :=
  Bool.eqb (fst d) (fst d') && Bool.eqb (snd d) (snd d').

(** The menu state set by a right click after the renders [first :: later]:
    the memoized [onContextMenuOpen] runs on the view model it captured. *)
Definition contextMenuOpened (first : ViewModel) (later : list ViewModel)
    (event : MouseEvent) : MenuState :=
  onContextMenuOpen (captured menuDeps sameMenuDeps first later) event.

(** The view model of the latest render. *)
Definition latest (first : ViewModel) (later : list ViewModel) : ViewModel :=
  last later first.

End Node.

Arguments menuDeps {Target Located} vm.

End GraphNode.

(** * Properties *)

Section Properties.
Context `{RouterTypes}.
Variable routeMatcher : RouteMatcher.
Variable appReducer : App -> Action -> App.

#[local] Abbreviation body := (bodyOf routeMatcher).
#[local] Abbreviation react := (routerReaction routeMatcher).
#[local] Abbreviation run1 := (step routeMatcher appReducer).

(** ** The loops *)

Lemma forOf_app (f : Route -> list Action -> Loop) before after pushed :
  forOf f (before ++ after) pushed =
  match forOf f before pushed with
  | Continue pushed' => forOf f after pushed'
  | Return r => Return r
  end.
Proof.
  revert pushed.
  induction before as [|route before IH]; intros pushed; simpl.
  - reflexivity.
  - destruct (f route pushed); [apply IH | reflexivity].
Qed.

(** The loop body, read off the two calls it makes. *)
Lemma body_calls phase store route pushed :
  body phase store route pushed =
  let collect :=
    match dispatchCall routeMatcher phase store route with
    | Some (Returned a) => Continue (pushed ++ [a])
    | Some (Threw e) => Return (Throws e)
    | None => Continue pushed
    end in
  match guardCall routeMatcher phase store route with
  | Some (Returned (GBool true)) | None => collect
  | Some (Returned (GBool false)) => Return EMPTY
  | Some (Returned (GUrl u)) => Return (of_ [redirectOf phase u])
  | Some (Threw e) => Return (Throws e)
  end.
Proof.
  unfold bodyOf, loopBody, guardCall, dispatchCall.
  destruct (hookOf (interceptOf phase) _) as [guard|],
           (hookOf (dispatchOf phase) _) as [hook|]; reflexivity.
Qed.

(** A loop that runs to its end has pushed what the dispatch hooks of its
    hierarchy produced, in route order. *)
Lemma forOf_continue phase store rs pushed pushed' :
  forOf (body phase store) rs pushed = Continue pushed' ->
  pushed' = pushed ++ produced routeMatcher phase store rs
  /\ Forall (guardLets routeMatcher phase store) rs
  /\ Forall (dispatchReturns routeMatcher phase store) rs.
Proof.
  revert pushed.
  induction rs as [|route rs IH]; intros pushed; simpl.
  - intros [= <-]. rewrite app_nil_r. auto.
  - rewrite body_calls. simpl.
    assert (Hcons : forall pushed1,
      guardLets routeMatcher phase store route ->
      dispatchReturns routeMatcher phase store route ->
      forOf (body phase store) rs pushed1 = Continue pushed' ->
      pushed1 = pushed
                ++ produced routeMatcher phase store [route] ->
      pushed' = pushed ++ produced routeMatcher phase store (route :: rs)
      /\ Forall (guardLets routeMatcher phase store) (route :: rs)
      /\ Forall (dispatchReturns routeMatcher phase store) (route :: rs)).
    { intros pushed1 Hlet Hret Hrest ->.
      destruct (IH _ Hrest) as (-> & Hgs & Hds).
      change (route :: rs) with ([route] ++ rs).
      unfold produced. rewrite flat_map_app, app_assoc.
      repeat split; auto; simpl; constructor; auto. }
    unfold guardLets, dispatchReturns, produced in Hcons. simpl in Hcons.
    destruct (guardCall routeMatcher phase store route)
      as [[[[|]|u]|e]|]; try discriminate;
    destruct (dispatchCall routeMatcher phase store route)
      as [[a|e]|]; try discriminate;
    intros Hrest; eapply Hcons; eauto; now rewrite ?app_nil_r.
Qed.

(** Conversely, when no guard stands in the way and no hook throws, the loop
    runs to its end. *)
Lemma forOf_success phase store rs pushed :
  Forall (guardLets routeMatcher phase store) rs ->
  Forall (dispatchReturns routeMatcher phase store) rs ->
  forOf (body phase store) rs pushed
  = Continue (pushed ++ produced routeMatcher phase store rs).
Proof.
  intros Hg; revert pushed.
  induction Hg as [|route rs Hlet _ IH]; intros pushed Hd; simpl.
  - now rewrite app_nil_r.
  - inversion Hd as [|? ? Hret Hd']; subst.
    rewrite body_calls. unfold dispatchReturns in Hret. simpl.
    destruct Hlet as [-> | ->];
      destruct (dispatchCall routeMatcher phase store route) as [[a|e]|];
      try contradiction; rewrite IH by assumption;
      rewrite <- ?app_assoc; reflexivity.
Qed.

(** A loop that is left early returns [EMPTY], a single redirect of its
    phase, or throws. *)
Lemma forOf_return phase store rs pushed acts :
  forOf (body phase store) rs pushed = Return (Emits acts) ->
  acts = [] \/ exists u, acts = [redirectOf phase u].
Proof.
  revert pushed.
  induction rs as [|route rs IH]; intros pushed; simpl; [discriminate|].
  rewrite body_calls. simpl.
  destruct (guardCall routeMatcher phase store route) as [[[[|]|u]|e]|];
    destruct (dispatchCall routeMatcher phase store route) as [[a|e']|];
    try discriminate; try apply IH;
    intros [= <-]; eauto.
Qed.

(** The pass, unfolded over the two phases. *)
Lemma pipeline_phases store nextUrl :
  pipeline routeMatcher store nextUrl =
  match forOf (body Leave store) (hierarchyOf routeMatcher Leave store nextUrl) [] with
  | Return r => r
  | Continue pushedOnLeave =>
      match forOf (body Enter store)
              (hierarchyOf routeMatcher Enter store nextUrl) [] with
      | Return r => r
      | Continue pushedOnEnter =>
          Emits (pushedOnLeave
                 ++ NavigationComplete nextUrl
                      (matchPath routeMatcher (path nextUrl))
                    :: pushedOnEnter)
      end
  end.
Proof. reflexivity. Qed.

(** When the iteration the pass has arrived at leaves the loop, its result is
    the result of the pass. *)
Lemma pass_leaves_at phase store nextUrl route pushed r :
  Reaches routeMatcher phase store nextUrl route pushed ->
  body phase store route pushed = Return r ->
  pipeline routeMatcher store nextUrl = r.
Proof.
  intros [Hleave (before & after & Hsplit & Hbefore)] Hbody.
  rewrite pipeline_phases.
  destruct phase.
  - rewrite Hsplit, forOf_app, Hbefore. simpl. now rewrite Hbody.
  - destruct (Hleave eq_refl) as [pushedOnLeave Hdone].
    change (hierarchyOf routeMatcher Leave store nextUrl)
      with (routes (router store)).
    rewrite Hdone, Hsplit, forOf_app, Hbefore. simpl. now rewrite Hbody.
Qed.

(** Without a guard in the way, a loop runs to its end unless a dispatch
    hook throws. *)
Lemma forOf_unguarded phase store rs pushed :
  Forall (guardLets routeMatcher phase store) rs ->
  forOf (body phase store) rs pushed
  = Continue (pushed ++ produced routeMatcher phase store rs)
  \/ exists e, forOf (body phase store) rs pushed = Return (Throws e).
Proof.
  intros Hg; revert pushed.
  induction Hg as [|route rs Hlet _ IH]; intros pushed; simpl.
  - left. now rewrite app_nil_r.
  - rewrite body_calls. simpl.
    destruct Hlet as [-> | ->];
      destruct (dispatchCall routeMatcher phase store route) as [[a|e]|];
      eauto; try (rewrite app_nil_r; apply IH);
      destruct (IH (pushed ++ [a])) as [-> | [e ->]]; eauto;
      left; now rewrite <- app_assoc.
Qed.

Lemma no_hook_lets phase store rs :
  (forall route, In route rs ->
     hookOf (interceptOf phase)
       (getRouteConfig routeMatcher (routeConfigId route)) = None) ->
  Forall (guardLets routeMatcher phase store) rs.
Proof.
  intros Hnone. apply Forall_forall. intros route Hin.
  left. unfold guardCall. now rewrite Hnone.
Qed.

(** ** The store *)

Lemma fold_dispatch acts m :
  fold_left (dispatch appReducer) acts m =
  {| mStore := fold_left (storeReducer appReducer) acts (mStore m);
     buffer := buffer m ++ filter isTrigger acts |}.
Proof.
  revert m. induction acts as [|a acts IH]; intros m; simpl.
  - rewrite app_nil_r. now destruct m.
  - rewrite IH. simpl. rewrite <- app_assoc.
    destruct (isTrigger a); reflexivity.
Qed.

Lemma router_fold acts store :
  router (fold_left (storeReducer appReducer) acts store)
  = fold_left routerReducer acts (router store).
Proof.
  revert store. induction acts as [|a acts IH]; intros store; simpl.
  - reflexivity.
  - now rewrite IH.
Qed.

Lemma reducer_other state action :
  isCommit action = false -> routerReducer state action = state.
Proof. destruct action; simpl; congruence. Qed.

Lemma fold_no_commit acts state :
  Forall (fun a => isCommit a = false) acts ->
  fold_left routerReducer acts state = state.
Proof.
  intros Hacts; revert state.
  induction Hacts as [|a acts Ha _ IH]; intros state; simpl.
  - reflexivity.
  - now rewrite reducer_other, IH.
Qed.

Lemma produced_no_commit phase store rs :
  HooksNeverCommit routeMatcher ->
  Forall (fun a => isCommit a = false) (produced routeMatcher phase store rs).
Proof.
  intros Hnever. unfold produced.
  induction rs as [|route rs IH]; simpl; [constructor|].
  destruct (dispatchCall routeMatcher phase store route) as [[a|e]|] eqn:Hd;
    simpl; auto.
  constructor; [eapply Hnever; eassumption | assumption].
Qed.

(** What a pass can emit: nothing, one redirect, or the commit between the
    produced leave and enter actions. *)
Lemma pass_shape store nextUrl acts :
  pipeline routeMatcher store nextUrl = Emits acts ->
  acts = []
  \/ (exists phase u, acts = [redirectOf phase u])
  \/ acts = produced routeMatcher Leave store (routes (router store))
            ++ NavigationComplete nextUrl (matchPath routeMatcher (path nextUrl))
            :: produced routeMatcher Enter store
                 (matchPath routeMatcher (path nextUrl)).
Proof.
  rewrite pipeline_phases. simpl.
  destruct (forOf (body Leave store) _ []) as [onLeave|r] eqn:Hleave.
  - destruct (forOf (body Enter store) _ []) as [onEnter|r] eqn:Henter.
    + apply forOf_continue in Hleave as (-> & _).
      apply forOf_continue in Henter as (-> & _).
      intros [= <-]. right; right. reflexivity.
    + intros ->. apply forOf_return in Henter as [-> | [u ->]]; eauto.
  - intros ->. apply forOf_return in Hleave as [-> | [u ->]]; eauto.
Qed.

(** One step of the machine on a pass that emits. *)
Lemma step_emits store trigger rest acts :
  react store trigger = Emits acts ->
  run1 {| mStore := store; buffer := trigger :: rest |}
  = Stepped {| mStore := fold_left (storeReducer appReducer) acts store;
               buffer := rest ++ filter isTrigger acts |}.
Proof.
  intros Hacts. unfold step. simpl. now rewrite Hacts, fold_dispatch.
Qed.

(** The pass of a trigger, over the two phases. *)
Lemma react_phases store trigger nextUrl :
  triggerUrl trigger = Some nextUrl ->
  react store trigger = pipeline routeMatcher store nextUrl.
Proof. intros Htrigger. unfold routerReaction. now rewrite Htrigger. Qed.

(** ** The claims *)

(** C2.  A successful pass (every guard that exists answers [true], no
    dispatch hook throws) emits, in this order: the actions of the
    [dispatchOnLeave] hooks of the committed hierarchy in route order, one
    [NavigationComplete] with the target url and its matched routes, the
    actions of the [dispatchOnEnter] hooks of the candidate hierarchy in route
    order. *)
Theorem commit_order store trigger nextUrl :
  triggerUrl trigger = Some nextUrl ->
  Forall (guardLets routeMatcher Leave store) (routes (router store)) ->
  Forall (dispatchReturns routeMatcher Leave store) (routes (router store)) ->
  Forall (guardLets routeMatcher Enter store)
    (matchPath routeMatcher (path nextUrl)) ->
  Forall (dispatchReturns routeMatcher Enter store)
    (matchPath routeMatcher (path nextUrl)) ->
  react store trigger =
  Emits (produced routeMatcher Leave store (routes (router store))
         ++ [NavigationComplete nextUrl (matchPath routeMatcher (path nextUrl))]
         ++ produced routeMatcher Enter store
              (matchPath routeMatcher (path nextUrl))).
Proof.
  intros Htrigger Hgl Hdl Hge Hde.
  rewrite (react_phases store trigger Htrigger), pipeline_phases. simpl hierarchyOf.
  now rewrite (forOf_success _ Hgl Hdl), (forOf_success _ Hge Hde).
Qed.

(** C5.  When a guard called during the pass ([interceptLeave] on the
    committed hierarchy or [interceptEnter] on the candidate one) returns
    [false], the pass emits nothing, and the machine goes on with the store it
    had and nothing new in the buffer. *)
Theorem guard_false_aborts phase store trigger nextUrl route pushed rest :
  triggerUrl trigger = Some nextUrl ->
  GuardAnswers routeMatcher phase store nextUrl route pushed
    (Returned (GBool false)) ->
  react store trigger = Emits []
  /\ run1 {| mStore := store; buffer := trigger :: rest |}
     = Stepped {| mStore := store; buffer := rest |}.
Proof.
  intros Htrigger [Hreach Hguard].
  assert (Hpass : react store trigger = Emits []).
  { rewrite (react_phases store trigger Htrigger).
    apply (pass_leaves_at Hreach). rewrite body_calls, Hguard. reflexivity. }
  split; [exact Hpass|].
  rewrite (step_emits _ _ _ Hpass). simpl. now rewrite app_nil_r.
Qed.

(** C6.  When a guard or dispatch hook called during the pass throws [e], the
    pass throws [e]: it emits no action, so no [NavigationComplete], and the
    store is left as it was before the pass. *)
Theorem hook_throw_propagates store trigger nextUrl e rest :
  triggerUrl trigger = Some nextUrl ->
  HookThrows routeMatcher store nextUrl e ->
  react store trigger = Throws e
  /\ run1 {| mStore := store; buffer := trigger :: rest |} = Crashed e store.
Proof.
  intros Htrigger (phase & route & pushed & Hthrow).
  assert (Hpass : react store trigger = Throws e).
  { unfold routerReaction. rewrite Htrigger.
    destruct Hthrow as [[Hreach Hguard] | (Hreach & Hlet & Hcall)];
      apply (pass_leaves_at Hreach); rewrite body_calls; simpl.
    - now rewrite Hguard.
    - rewrite Hcall. now destruct Hlet as [-> | ->]. }
  split; [exact Hpass|].
  unfold step. simpl. now rewrite Hpass.
Qed.

(** C9.  When a guard called during the pass returns a url, the only action
    of the pass is the redirect of its phase: whatever the dispatch hooks
    pushed before ([pushed], and on enter all of the leave actions) is not
    emitted; the store folds the redirect alone, the router state is not
    touched, and the redirect joins the buffer as a new trigger. *)
Theorem guard_url_redirects phase store trigger nextUrl route pushed u rest :
  triggerUrl trigger = Some nextUrl ->
  GuardAnswers routeMatcher phase store nextUrl route pushed
    (Returned (GUrl u)) ->
  react store trigger = Emits [redirectOf phase u]
  /\ run1 {| mStore := store; buffer := trigger :: rest |}
     = Stepped {| mStore := storeReducer appReducer store (redirectOf phase u);
                  buffer := rest ++ [redirectOf phase u] |}
  /\ router (storeReducer appReducer store (redirectOf phase u)) = router store
  /\ react store (redirectOf phase u) = pipeline routeMatcher store u.
Proof.
  intros Htrigger [Hreach Hguard].
  assert (Hpass : react store trigger = Emits [redirectOf phase u]).
  { rewrite (react_phases store trigger Htrigger).
    apply (pass_leaves_at Hreach). rewrite body_calls, Hguard. reflexivity. }
  repeat split.
  - exact Hpass.
  - rewrite (step_emits _ _ _ Hpass). simpl. now destruct phase.
  - now destruct phase.
  - now destruct phase.
Qed.

(** C10.  A route whose [routeConfigId] has no entry in the registry has none
    of the four hooks called: its iteration falls through with nothing
    pushed, in both loops, so each loop gives what it gives without that
    route. *)
Theorem missing_config_is_skipped route :
  getRouteConfig routeMatcher (routeConfigId route) = None ->
  forall phase store,
    guardCall routeMatcher phase store route = None
    /\ dispatchCall routeMatcher phase store route = None
    /\ (forall pushed, body phase store route pushed = Continue pushed)
    /\ (forall before after pushed,
          forOf (body phase store) (before ++ route :: after) pushed
          = forOf (body phase store) (before ++ after) pushed).
Proof.
  intros Hnone phase store.
  assert (Hg : guardCall routeMatcher phase store route = None)
    by (unfold guardCall; now rewrite Hnone).
  assert (Hd : dispatchCall routeMatcher phase store route = None)
    by (unfold dispatchCall; now rewrite Hnone).
  assert (Hbody : forall pushed, body phase store route pushed = Continue pushed)
    by (intros pushed; now rewrite body_calls, Hg, Hd).
  repeat split; auto.
  intros before after pushed. rewrite !forOf_app.
  destruct (forOf (body phase store) before pushed); [|reflexivity].
  simpl. now rewrite Hbody.
Qed.

(** Folding the emission of a committing pass: the commit overwrites what
    the leave actions did to the router state. *)
Lemma fold_commit before u rs after state :
  Forall (fun a => isCommit a = false) after ->
  fold_left routerReducer (before ++ NavigationComplete u rs :: after) state
  = {| url := u; routes := rs |}.
Proof.
  intros Hafter. rewrite fold_left_app. simpl. now apply fold_no_commit.
Qed.

(** C1, amended.  Provided the dispatch hooks never hand back the router's
    own commit action: the reducer replaces [url] and [routes] together on
    [NavigationComplete] and is the identity on every other action; every
    [NavigationComplete] that a pass emits carries the routes that the matcher
    gives for the path of its url; so a pass leaves the router state as it
    was or commits a state whose routes are what the matcher gives for its
    url, and a state of that kind stays of that kind. *)
Theorem routes_follow_committed_url :
  HooksNeverCommit routeMatcher ->
  (forall state u rs,
     routerReducer state (NavigationComplete u rs)
     = {| url := u; routes := rs |})
  /\ (forall state action,
        isCommit action = false -> routerReducer state action = state)
  /\ (forall store trigger acts u rs,
        react store trigger = Emits acts ->
        In (NavigationComplete u rs) acts ->
        rs = matchPath routeMatcher (path u))
  /\ (forall m m',
        run1 m = Stepped m' ->
        router (mStore m') = router (mStore m)
        \/ Consistent routeMatcher (router (mStore m')))
  /\ (forall m m',
        Consistent routeMatcher (router (mStore m)) ->
        run1 m = Stepped m' ->
        Consistent routeMatcher (router (mStore m'))).
Proof.
  intros Hnever.
  assert (Hpass : forall store trigger acts,
    react store trigger = Emits acts ->
    Forall (fun a => isCommit a = false) acts
    \/ exists before u after,
         acts = before
                ++ NavigationComplete u (matchPath routeMatcher (path u))
                :: after
         /\ Forall (fun a => isCommit a = false) before
         /\ Forall (fun a => isCommit a = false) after).
  { intros store trigger acts. unfold routerReaction.
    destruct (triggerUrl trigger) as [nextUrl|].
    - intros Hacts.
      destruct (pass_shape _ _ Hacts) as [-> | [(phase & u & ->) | ->]].
      + left. constructor.
      + left. constructor; [now destruct phase | constructor].
      + right. do 3 eexists. split; [reflexivity|].
        split; now apply produced_no_commit.
    - intros [= <-]. left. constructor. }
  assert (Hstep : forall m m',
    run1 m = Stepped m' ->
    router (mStore m') = router (mStore m)
    \/ Consistent routeMatcher (router (mStore m'))).
  { intros m m'. unfold step.
    destruct (buffer m) as [|trigger rest]; [discriminate|].
    destruct (react (mStore m) trigger) as [acts|e] eqn:Hacts; [|discriminate].
    intros [= <-]. rewrite fold_dispatch. simpl. rewrite router_fold.
    destruct (Hpass _ _ _ Hacts) as [Hno | (before & u & after & -> & _ & Ha)].
    - left. now apply fold_no_commit.
    - right. rewrite fold_commit by assumption. reflexivity. }
  repeat split.
  - intros state action. apply reducer_other.
  - intros store trigger acts u rs Hacts Hin.
    destruct (Hpass _ _ _ Hacts) as [Hno | (before & u' & after & -> & Hb & Ha)].
    + rewrite Forall_forall in Hno. now apply Hno in Hin.
    + apply in_app_or in Hin as [Hin | [[= -> ->] | Hin]].
      * rewrite Forall_forall in Hb. now apply Hb in Hin.
      * reflexivity.
      * rewrite Forall_forall in Ha. now apply Ha in Hin.
  - exact Hstep.
  - intros m m' Hm Hrun. destruct (Hstep _ _ Hrun) as [-> | Hm']; assumption.
Qed.


(** C4, amended.  When [interceptEnter], called for the target [u1], returns
    the url [u2], the pass emits the redirect alone and the router state is
    not touched; the redirect is a trigger like any other, so the next pass
    is the whole pipeline for [u2] on the store as it is then; if no guard
    stands in the way of that pass and no hook of it throws, it commits [u2]
    with the routes matched for [u2], and that is the router state after it
    unless a [dispatchOnEnter] hook hands back a commit of its own. *)
Theorem enter_redirect_reenters store u1 route pushed u2 :
  GuardAnswers routeMatcher Enter store u1 route pushed (Returned (GUrl u2)) ->
  let store1 := storeReducer appReducer store (InterceptEnterRedirect u2) in
  run1 {| mStore := store; buffer := [navigate u1] |}
  = Stepped {| mStore := store1; buffer := [InterceptEnterRedirect u2] |}
  /\ router store1 = router store
  /\ react store1 (InterceptEnterRedirect u2) = pipeline routeMatcher store1 u2
  /\ (Forall (guardLets routeMatcher Leave store1) (routes (router store1)) ->
      Forall (dispatchReturns routeMatcher Leave store1)
        (routes (router store1)) ->
      Forall (guardLets routeMatcher Enter store1)
        (matchPath routeMatcher (path u2)) ->
      Forall (dispatchReturns routeMatcher Enter store1)
        (matchPath routeMatcher (path u2)) ->
      Forall (fun a => isCommit a = false)
        (produced routeMatcher Enter store1
           (matchPath routeMatcher (path u2))) ->
      exists m2,
        run1 {| mStore := store1; buffer := [InterceptEnterRedirect u2] |}
        = Stepped m2
        /\ router (mStore m2)
           = {| url := u2; routes := matchPath routeMatcher (path u2) |}).
Proof.
  intros [Hreach Hguard] store1.
  assert (Hpass : react store (navigate u1)
                  = Emits [InterceptEnterRedirect u2]).
  { apply (pass_leaves_at Hreach). rewrite body_calls, Hguard. reflexivity. }
  repeat split.
  - now rewrite (step_emits _ _ _ Hpass).
  - intros Hgl Hdl Hge Hde Hforeign.
    eexists. split.
    + apply step_emits.
      rewrite (react_phases store1 (InterceptEnterRedirect u2) eq_refl).
      rewrite pipeline_phases. simpl hierarchyOf.
      rewrite (forOf_success _ Hgl Hdl), (forOf_success _ Hge Hde).
      reflexivity.
    + simpl. rewrite router_fold. now apply fold_commit.
Qed.

(** C7, amended.  When no route of the committed hierarchy has an
    [interceptLeave] hook, no route of the hierarchy matched for [u] has an
    [interceptEnter] hook, and none of the actions that the [dispatchOnEnter]
    hooks of that hierarchy return is itself a [NavigationComplete], a pass
    for [navigate u] that completes emits the leave actions, the commit of
    [u] with the routes matched for [u], and the enter actions, and after it
    the router state is [u] with these routes. *)
Theorem unguarded_navigation_commits store u acts rest :
  (forall route, In route (routes (router store)) ->
     hookOf interceptLeave
       (getRouteConfig routeMatcher (routeConfigId route)) = None) ->
  (forall route, In route (matchPath routeMatcher (path u)) ->
     hookOf interceptEnter
       (getRouteConfig routeMatcher (routeConfigId route)) = None) ->
  Forall (fun a => isCommit a = false)
    (produced routeMatcher Enter store (matchPath routeMatcher (path u))) ->
  react store (navigate u) = Emits acts ->
  let committed := {| url := u; routes := matchPath routeMatcher (path u) |} in
  acts = produced routeMatcher Leave store (routes (router store))
         ++ NavigationComplete u (routes committed)
         :: produced routeMatcher Enter store
              (matchPath routeMatcher (path u))
  /\ router (fold_left (storeReducer appReducer) acts store) = committed
  /\ exists m',
       run1 {| mStore := store; buffer := navigate u :: rest |} = Stepped m'
       /\ router (mStore m') = committed.
Proof.
  intros Hleave Henter Hforeign Hacts committed.
  assert (Hshape : acts
                   = produced routeMatcher Leave store (routes (router store))
                     ++ NavigationComplete u (routes committed)
                     :: produced routeMatcher Enter store
                          (matchPath routeMatcher (path u))).
  { unfold routerReaction in Hacts. simpl in Hacts.
    rewrite pipeline_phases in Hacts. simpl hierarchyOf in Hacts.
    destruct (@forOf_unguarded Leave store (routes (router store)) [])
      as [Hl | [e Hl]]; [now apply no_hook_lets | |];
      rewrite Hl in Hacts; [|discriminate].
    destruct (@forOf_unguarded Enter store
                (matchPath routeMatcher (path u)) [])
      as [He | [e He]]; [now apply no_hook_lets | |];
      rewrite He in Hacts; [|discriminate].
    now injection Hacts as <-. }
  assert (Hstate : router (fold_left (storeReducer appReducer) acts store)
                   = committed)
    by (rewrite Hshape, router_fold; now apply fold_commit).
  repeat split; [exact Hshape | exact Hstate |].
  eexists. split; [apply (step_emits _ _ _ Hacts) | exact Hstate].
Qed.

(** C8.  Construction produces one trigger and no other action: a
    [Navigate] whose url is the url that the router state holds then, the one
    of [createUrl()]; it is what the buffer holds at the start, with the
    router state still the initial one, and its pass is the first to run. *)
Theorem bootstrap_once app0 :
  bootstrapReaction = [navigate (url initialState)]
  /\ filter isTrigger bootstrapReaction = [Navigate createUrl]
  /\ buffer (initialMachine appReducer app0) = [Navigate createUrl]
  /\ router (mStore (initialMachine appReducer app0)) = initialState
  /\ fst (passes routeMatcher appReducer 1 (initialMachine appReducer app0))
     = [Navigate createUrl].
Proof.
  repeat split.
  unfold initialMachine, bootstrapReaction, passes, step, routerReaction.
  simpl. destruct (pipeline _ _ _); reflexivity.
Qed.

End Properties.

(** * The claims on the demo registry *)

Section OnDemo.
Import Demo.
Open Scope string_scope.

(** The pass arrives at a route: the split of the hierarchy is given, the
    loops before it are run. *)
Ltac arrive before after :=
  split;
  [ intros _; eexists; reflexivity
  | exists before, after; split; reflexivity ].

Lemma demo_hooks_never_commit : HooksNeverCommit matcher.
Proof.
  intros phase store route a. unfold dispatchCall. simpl.
  do 10 (destruct route as [|route]; [destruct phase; simpl; try discriminate;
                                        intros [= <-]; reflexivity|]).
  destruct phase; discriminate.
Qed.

Lemma routes_follow_committed_url_witness :
  HooksNeverCommit matcher
  /\ routerReaction matcher (at_ ["a"]) (Navigate ["a"])
     = Emits [Other "leftA"; NavigationComplete ["a"] [1]; Other "enteredA"]
  /\ [1] = matchPath matcher (path (["a"] : list string)).
Proof.
  split; [exact demo_hooks_never_commit|]. split; [reflexivity|].
  destruct (@routes_follow_committed_url types matcher log
              demo_hooks_never_commit)
    as (_ & _ & Hemit & _).
  refine (Hemit (at_ ["a"]) (Navigate ["a"]) _ (["a"] : list string) [1]
            eq_refl _).
  right; left; reflexivity.
Defined.

(** C1 as stated fails: the enter hook of route 10 hands back a commit of
    its own, the store folds it after the commit of the pass, and the router
    state that results holds routes that the matcher does not give for its
    url. *)
Lemma hook_commit_breaks_routes :
  routerReaction Demo2.matcher fresh (Navigate ["h"])
  = Emits [NavigationComplete ["h"] [10]; NavigationComplete ["z"] [42]]
  /\ step Demo2.matcher log (queue fresh [Navigate ["h"]])
     = Stepped (queue {| router := {| url := ["z"]; routes := [42] |};
                         app := [] |} [])
  /\ matchPath Demo2.matcher (path (["z"] : list string)) = []
  /\ ~ Consistent Demo2.matcher {| url := ["z"]; routes := [42] |}.
Proof.
  repeat split. discriminate.
Qed.

Lemma commit_order_witness :
  routerReaction matcher (at_ ["a"]) (Navigate ["a"])
  = Emits [Other "leftA"; NavigationComplete ["a"] [1]; Other "enteredA"].
Proof.
  refine (@commit_order types matcher (at_ ["a"]) (Navigate ["a"])
            (["a"] : list string) _ _ _ _ _).
  - reflexivity.
  - repeat constructor.
  - repeat constructor.
  - repeat constructor.
  - repeat constructor.
Defined.



(** C4 as stated fails: the guard of [/d] redirects to [/b], the guard of
    [/b] refuses entry, and the run settles with the initial url. *)
Lemma redirect_target_may_refuse :
  GuardAnswers matcher Enter fresh ["d"] 4 [] (Returned (GUrl ["b"]))
  /\ passes matcher log 5 (queue fresh [Navigate ["d"]])
     = ([Navigate ["d"]; InterceptEnterRedirect ["b"]],
        Settled (queue fresh []))
  /\ ~ EndsAt matcher log fresh (Navigate ["d"]) ["b"].
Proof.
  split; [split; [arrive (@nil nat) (@nil nat) | reflexivity]|].
  split; [reflexivity|].
  intros Hclaim. specialize (Hclaim 5 (queue fresh []) eq_refl).
  discriminate.
Qed.

Lemma enter_redirect_reenters_witness :
  exists m2,
    step matcher log (queue fresh [InterceptEnterRedirect ["a"]]) = Stepped m2
    /\ router (mStore m2) = {| url := ["a"]; routes := [1] |}.
Proof.
  refine (proj2 (proj2 (proj2
    (@enter_redirect_reenters types matcher log fresh ["c"] 3 [] ["a"] _)))
    _ _ _ _ _).
  - split; [arrive (@nil nat) (@nil nat) | reflexivity].
  - constructor.
  - constructor.
  - repeat constructor.
  - repeat constructor.
  - repeat constructor.
Defined.

Lemma guard_false_aborts_witness :
  routerReaction matcher fresh (Navigate ["b"]) = Emits []
  /\ step matcher log (queue fresh [Navigate ["b"]])
     = Stepped (queue fresh []).
Proof.
  refine (@guard_false_aborts types matcher log Enter fresh (Navigate ["b"])
            (["b"] : list string) 2 [] [] _ _).
  - reflexivity.
  - split; [arrive (@nil nat) (@nil nat) | reflexivity].
Defined.

Lemma hook_throw_propagates_witness :
  routerReaction matcher (at_ ["a"]) (Navigate ["e"]) = Throws "boom"
  /\ step matcher log (queue (at_ ["a"]) [Navigate ["e"]])
     = Crashed "boom" (at_ ["a"]).
Proof.
  refine (@hook_throw_propagates types matcher log (at_ ["a"])
            (Navigate ["e"]) (["e"] : list string) "boom" [] _ _).
  - reflexivity.
  - exists Enter, 5, []. right.
    split; [arrive (@nil nat) (@nil nat)|].
    split; [left|]; reflexivity.
Defined.

Lemma unguarded_navigation_commits_witness :
  router (fold_left (storeReducer log)
            [Other "leftA"; NavigationComplete ["a"] [1]; Other "enteredA"]
            (at_ ["a"]))
  = {| url := ["a"]; routes := [1] |}.
Proof.
  refine (proj1 (proj2
    (@unguarded_navigation_commits types matcher log (at_ ["a"])
       (["a"] : list string)
       [Other "leftA"; NavigationComplete ["a"] [1]; Other "enteredA"] []
       _ _ _ _))).
  - intros route [<- | []]. reflexivity.
  - intros route [<- | []]. reflexivity.
  - repeat constructor.
  - reflexivity.
Defined.

(** C7 as stated fails: no route of either hierarchy has a guard, the enter
    hook of route 10 hands back a commit of [/z], and after the pass for
    [navigate /h] the committed url is [/z]. *)
Lemma enter_action_overwrites_target :
  (forall route, In route (routes (router fresh)) ->
     hookOf interceptLeave (getRouteConfig Demo2.matcher route) = None)
  /\ (forall route, In route (matchPath Demo2.matcher ["h"]) ->
        hookOf interceptEnter (getRouteConfig Demo2.matcher route) = None
        /\ hookOf interceptLeave (getRouteConfig Demo2.matcher route) = None)
  /\ passes Demo2.matcher log 2 (queue fresh [navigate ["h"]])
     = ([Navigate ["h"]],
        Settled (queue {| router := {| url := ["z"]; routes := [42] |};
                          app := [] |} []))
  /\ url {| url := ["z"]; routes := [42] |} <> (["h"] : list string).
Proof.
  split; [intros route []|].
  split; [intros route [<- | []]; split; reflexivity|].
  split; [reflexivity | discriminate].
Qed.

Lemma guard_url_redirects_witness :
  Reaches matcher Enter (at_ ["a"]) ["a"; "x"] 8 [Other "enteredA"]
  /\ routerReaction matcher (at_ ["a"]) (Navigate ["a"; "x"])
     = Emits [InterceptEnterRedirect ["a"]].
Proof.
  assert (Hreach : Reaches matcher Enter (at_ ["a"]) ["a"; "x"] 8
                     [Other "enteredA"]) by arrive [1] (@nil nat).
  split; [exact Hreach|].
  exact (proj1 (@guard_url_redirects types matcher log Enter (at_ ["a"])
                  (Navigate ["a"; "x"]) ["a"; "x"] 8 [Other "enteredA"]
                  ["a"] [] eq_refl (conj Hreach eq_refl))).
Defined.

Lemma missing_config_is_skipped_witness :
  forOf (bodyOf matcher Enter (at_ ["a"])) [1; 7; 8] []
  = forOf (bodyOf matcher Enter (at_ ["a"])) [1; 8] [].
Proof.
  destruct (@missing_config_is_skipped types matcher 7 eq_refl
              Enter (at_ ["a"])) as (_ & _ & _ & Hskip).
  exact (Hskip [1] [8] []).
Defined.

End OnDemo.

(** * Further properties of the router *)

Section Passes.
Context `{RouterTypes}.
Variable routeMatcher : RouteMatcher.
Variable appReducer : App -> Action -> App.

#[local] Abbreviation loopOf := (bodyOf routeMatcher).
#[local] Abbreviation pass := (routerReaction routeMatcher).
#[local] Abbreviation advance := (step routeMatcher appReducer).

(** What a step does to the router state, whatever the pass emitted. *)
Lemma step_router_state m m' :
  HooksNeverCommit routeMatcher ->
  advance m = Stepped m' ->
  router (mStore m') = router (mStore m)
  \/ exists trigger u,
       hd_error (buffer m) = Some trigger
       /\ triggerUrl trigger = Some u
       /\ router (mStore m')
          = {| url := u; routes := matchPath routeMatcher (path u) |}.
Proof.
  intros Hnever. unfold step.
  destruct (buffer m) as [|trigger rest]; [discriminate|].
  destruct (pass (mStore m) trigger) as [acts|e] eqn:Hacts; [|discriminate].
  intros [= <-]. rewrite fold_dispatch. simpl. rewrite router_fold.
  unfold routerReaction in Hacts.
  destruct (triggerUrl trigger) as [u|] eqn:Hu.
  - destruct (pass_shape _ _ _ Hacts) as [-> | [(phase & v & ->) | ->]].
    + now left.
    + left. now destruct phase.
    + right. exists trigger, u. repeat split; auto.
      apply fold_commit. now apply produced_no_commit.
  - injection Hacts as <-. now left.
Qed.

(** X1.  A pass has one of three outcomes and never mixes them: it emits
    nothing; or one redirect and nothing else; or, for a trigger with url
    [u], the leave actions, one commit of [u] with the routes matched for
    [u], and the enter actions.  An action that [filterActions] stops starts
    no pass at all. *)
Theorem pass_outcomes store action acts :
  pass store action = Emits acts ->
  acts = []
  \/ (exists phase v, acts = [redirectOf phase v]
                      /\ isTrigger action = true)
  \/ (exists u,
        triggerUrl action = Some u
        /\ acts = produced routeMatcher Leave store (routes (router store))
                  ++ NavigationComplete u (matchPath routeMatcher (path u))
                  :: produced routeMatcher Enter store
                       (matchPath routeMatcher (path u))).
Proof.
  unfold routerReaction, isTrigger.
  destruct (triggerUrl action) as [u|].
  - intros Hacts.
    destruct (pass_shape _ _ _ Hacts) as [-> | [(phase & v & ->) | ->]]; eauto.
    right; left. eauto.
  - intros [= <-]. now left.
Qed.

(** X2.  The leave phase does not look at the target.  When a hook of the
    leave phase ends the pass for one target early, by [false], by a url or by
    a throw, the pass for every other target ends in the same way: while the
    store is in that state the committed hierarchy cannot be left. *)
Theorem leave_verdict_for_all_targets store u route pushed c :
  GuardAnswers routeMatcher Leave store u route pushed c ->
  c <> Returned (GBool true) ->
  forall trigger u',
    triggerUrl trigger = Some u' ->
    pass store trigger = pipeline routeMatcher store u
    /\ forall acts,
         pass store trigger = Emits acts ->
         Forall (fun a => isCommit a = false) acts.
Proof.
  intros [[_ Hreach] Hguard] Hc trigger u' Htrigger.
  assert (Hexit : exists r,
    loopOf Leave store route pushed = Return r
    /\ match r with
       | Emits acts => Forall (fun a => isCommit a = false) acts
       | Throws _ => True
       end).
  { rewrite body_calls, Hguard.
    destruct c as [[[|]|v]|e]; try congruence; eexists; split;
      try reflexivity; simpl; repeat constructor. }
  destruct Hexit as (r & Hbody & Hr).
  assert (Hany : forall v, pipeline routeMatcher store v = r).
  { intros v. apply (@pass_leaves_at _ routeMatcher Leave store v route pushed).
    - split; [discriminate | exact Hreach].
    - exact Hbody. }
  rewrite (react_phases _ _ _ Htrigger), !Hany. split; [reflexivity|].
  intros acts ->. exact Hr.
Qed.


(** X4.  Navigating to the url that is committed already is not cut short:
    the pass runs both phases over the same hierarchy.  But it cannot change
    the router state: whatever the pass emits, a router state whose routes
    are the ones matched for its url is the same after the pass, provided no
    dispatch hook hands back a commit of its own. *)
Theorem renavigation_keeps_state store trigger acts :
  HooksNeverCommit routeMatcher ->
  Consistent routeMatcher (router store) ->
  triggerUrl trigger = Some (url (router store)) ->
  pass store trigger = Emits acts ->
  router (fold_left (storeReducer appReducer) acts store) = router store.
Proof.
  intros Hnever Hcons Htrigger Hacts.
  rewrite (react_phases _ _ _ Htrigger) in Hacts. rewrite router_fold.
  destruct (pass_shape _ _ _ Hacts) as [-> | [(phase & v & ->) | ->]].
  - reflexivity.
  - now destruct phase.
  - rewrite fold_commit by now apply produced_no_commit.
    unfold Consistent in Hcons. rewrite <- Hcons. now destruct (router store).
Qed.

(** X5.  Along a whole run, however many passes and redirects it takes and
    however it ends, a router state whose routes are the ones matched for its
    url stays such a state, provided no dispatch hook hands back a commit of
    its own. *)
Theorem run_keeps_consistent fuel m :
  HooksNeverCommit routeMatcher ->
  Consistent routeMatcher (router (mStore m)) ->
  match snd (passes routeMatcher appReducer fuel m) with
  | Settled m' | Unsettled m' => Consistent routeMatcher (router (mStore m'))
  | Failed _ store => Consistent routeMatcher (router store)
  end.
Proof.
  intros Hnever. revert m.
  induction fuel as [|fuel IH]; intros m Hm; simpl.
  - now destruct (buffer m).
  - destruct (advance m) as [|m'|e store] eqn:Hstep; simpl.
    + exact Hm.
    + specialize (IH m').
      destruct (passes routeMatcher appReducer fuel m') as [order final].
      simpl in *. apply IH.
      destruct (step_router_state _ Hnever Hstep)
        as [-> | (trigger & u & _ & _ & ->)]; [exact Hm | reflexivity].
    + unfold step in Hstep.
      destruct (buffer m) as [|trigger rest]; [discriminate|].
      destruct (pass (mStore m) trigger); [discriminate|].
      now injection Hstep as _ <-.
Qed.

(** X6.  A leave guard that redirects can never be satisfied by the
    redirect: the re-entry reads the same committed hierarchy, runs the same
    leave guard and is redirected again.  When the guard answers with the url
    [v] in every store that holds the present router state, the run from any
    trigger never settles: after any number of passes the redirect to [v] is
    waiting again and nothing was committed. *)
Theorem leave_redirect_never_settles store v :
  (forall store',
     router store' = router store ->
     exists route pushed,
       GuardAnswers routeMatcher Leave store' v route pushed
         (Returned (GUrl v))) ->
  forall fuel trigger u,
    triggerUrl trigger = Some u ->
    exists m',
      passes routeMatcher appReducer (S fuel)
        {| mStore := store; buffer := [trigger] |}
      = (trigger :: repeat (InterceptLeaveRedirect v) fuel, Unsettled m')
      /\ router (mStore m') = router store
      /\ buffer m' = [InterceptLeaveRedirect v].
Proof.
  intros Hguard fuel.
  assert (Hpass : forall store' trigger u,
    router store' = router store ->
    triggerUrl trigger = Some u ->
    advance {| mStore := store'; buffer := [trigger] |}
    = Stepped {| mStore := storeReducer appReducer store'
                             (InterceptLeaveRedirect v);
                 buffer := [InterceptLeaveRedirect v] |}).
  { intros store' trigger u Hsame Htrigger.
    destruct (Hguard store' Hsame) as (route & pushed & [_ Hreach] & Hcall).
    rewrite (step_emits _ _ _ _ _ (acts := [InterceptLeaveRedirect v]));
      [reflexivity|].
    rewrite (react_phases _ _ _ Htrigger).
    apply (@pass_leaves_at _ routeMatcher Leave store' u route pushed).
    - split; [discriminate | exact Hreach].
    - rewrite body_calls, Hcall. reflexivity. }
  assert (Hrun : forall store' trigger u,
    router store' = router store ->
    triggerUrl trigger = Some u ->
    exists m',
      passes routeMatcher appReducer (S fuel)
        {| mStore := store'; buffer := [trigger] |}
      = (trigger :: repeat (InterceptLeaveRedirect v) fuel, Unsettled m')
      /\ router (mStore m') = router store
      /\ buffer m' = [InterceptLeaveRedirect v]).
  { induction fuel as [|fuel IH]; intros store' trigger u Hsame Htrigger.
    - cbn [passes]. rewrite (Hpass _ _ _ Hsame Htrigger). simpl.
      eexists. repeat split. exact Hsame.
    - change (passes routeMatcher appReducer (S (S fuel))
                {| mStore := store'; buffer := [trigger] |})
        with (match advance {| mStore := store'; buffer := [trigger] |} with
              | Idle => ([], Settled {| mStore := store'; buffer := [trigger] |})
              | Stepped m1 =>
                  let (order, final) :=
                    passes routeMatcher appReducer (S fuel) m1 in
                  (hd_error [trigger] ++? order, final)
              | Crashed e s => (hd_error [trigger] ++? [], Failed e s)
              end).
      rewrite (Hpass _ _ _ Hsame Htrigger).
      destruct (IH (storeReducer appReducer store' (InterceptLeaveRedirect v))
                  (InterceptLeaveRedirect v) v Hsame eq_refl)
        as (m' & -> & Hrouter & Hbuffer).
      exists m'. repeat split; assumption. }
  intros trigger u. now apply Hrun.
Qed.

End Passes.

(** * Properties of the insights slice *)

Section InsightsSlice.
Import Insights.
Variables ObservableState SubscriberState Event : Type.
Variable observableRefId : ObservableState -> nat.
Variable subscriberRefId : SubscriberState -> nat.
Variable eventTime : Event -> nat.

#[local] Abbreviation State := (InsightsState ObservableState SubscriberState).
#[local] Abbreviation reduce :=
  (insightsReducer observableRefId subscriberRefId eventTime).
#[local] Abbreviation reduceAll :=
  (fold_left (insightsReducer observableRefId subscriberRefId eventTime)).

(** One action and one key of either record. *)
Lemma reduce_observable (state : State) action id :
  observableStateSelector id (reduce state action)
  = match action with
    | ObservableStateLoaded (Some o) =>
        if Nat.eqb id (observableRefId o) then Some o
        else observableStateSelector id state
    | _ => observableStateSelector id state
    end.
Proof. destruct action as [[o|]|[s|]|e|]; reflexivity. Qed.

Lemma reduce_subscriber (state : State) action id :
  subscriberStateSelector id (reduce state action)
  = match action with
    | SubscriberStateLoaded (Some s) =>
        if Nat.eqb id (subscriberRefId s) then Some s
        else subscriberStateSelector id state
    | _ => subscriberStateSelector id state
    end.
Proof. destruct action as [[o|]|[s|]|e|]; reflexivity. Qed.

(** X7.  A loaded observable state is what the selector of its ref id gives
    afterwards; the load changes no other key, no subscriber and not the
    time.  The same holds for a loaded subscriber state. *)
Theorem load_then_select (state : State) :
  (forall o,
     let state' := reduce state (ObservableStateLoaded (Some o)) in
     observableStateSelector (observableRefId o) state' = Some o
     /\ (forall id, id <> observableRefId o ->
           observableStateSelector id state'
           = observableStateSelector id state)
     /\ (forall id, subscriberStateSelector id state'
                    = subscriberStateSelector id state)
     /\ time state' = time state)
  /\ (forall s,
        let state' := reduce state (SubscriberStateLoaded (Some s)) in
        subscriberStateSelector (subscriberRefId s) state' = Some s
        /\ (forall id, id <> subscriberRefId s ->
              subscriberStateSelector id state'
              = subscriberStateSelector id state)
        /\ (forall id, observableStateSelector id state'
                       = observableStateSelector id state)
        /\ time state' = time state).
Proof.
  split; intros x state'; subst state'.
  - rewrite reduce_observable, Nat.eqb_refl. repeat split; auto.
    intros id Hid. rewrite reduce_observable.
    now apply Nat.eqb_neq in Hid as ->.
  - rewrite reduce_subscriber, Nat.eqb_refl. repeat split; auto.
    intros id Hid. rewrite reduce_subscriber.
    now apply Nat.eqb_neq in Hid as ->.
Qed.

(** X8.  After any sequence of actions, the selector of an id gives the
    state loaded last under that id, whatever was dispatched after it, and
    what it gave before when no action of the sequence loads under that id.
    Observables and subscribers alike. *)
Theorem last_load_wins (state : State) actions :
  (forall before o after,
     actions = before ++ ObservableStateLoaded (Some o) :: after ->
     forallb (fun a => negb (loadsObservable observableRefId
                               (observableRefId o) a)) after = true ->
     observableStateSelector (observableRefId o) (reduceAll actions state)
     = Some o)
  /\ (forall id,
        forallb (fun a => negb (loadsObservable observableRefId id a))
          actions = true ->
        observableStateSelector id (reduceAll actions state)
        = observableStateSelector id state)
  /\ (forall before s after,
        actions = before ++ SubscriberStateLoaded (Some s) :: after ->
        forallb (fun a => negb (loadsSubscriber subscriberRefId
                                  (subscriberRefId s) a)) after = true ->
        subscriberStateSelector (subscriberRefId s) (reduceAll actions state)
        = Some s)
  /\ (forall id,
        forallb (fun a => negb (loadsSubscriber subscriberRefId id a))
          actions = true ->
        subscriberStateSelector id (reduceAll actions state)
        = subscriberStateSelector id state).
Proof.
  assert (Hobs : forall acts (st : State) id,
    forallb (fun a => negb (loadsObservable observableRefId id a)) acts = true ->
    observableStateSelector id (reduceAll acts st)
    = observableStateSelector id st).
  { induction acts as [|a acts IH]; intros st id; simpl; [reflexivity|].
    intros [Ha Hacts]%andb_prop. rewrite IH by assumption.
    rewrite reduce_observable.
    destruct a as [[o|]|[s|]|e|]; try reflexivity.
    simpl in Ha. rewrite Nat.eqb_sym. now destruct (Nat.eqb _ _). }
  assert (Hsub : forall acts (st : State) id,
    forallb (fun a => negb (loadsSubscriber subscriberRefId id a)) acts = true ->
    subscriberStateSelector id (reduceAll acts st)
    = subscriberStateSelector id st).
  { induction acts as [|a acts IH]; intros st id; simpl; [reflexivity|].
    intros [Ha Hacts]%andb_prop. rewrite IH by assumption.
    rewrite reduce_subscriber.
    destruct a as [[o|]|[s|]|e|]; try reflexivity.
    simpl in Ha. rewrite Nat.eqb_sym. now destruct (Nat.eqb _ _). }
  repeat split.
  - intros before o after -> Hafter.
    rewrite fold_left_app. cbn [fold_left]. rewrite Hobs by assumption.
    now rewrite reduce_observable, Nat.eqb_refl.
  - intros id. apply Hobs.
  - intros before s after -> Hafter.
    rewrite fold_left_app. cbn [fold_left]. rewrite Hsub by assumption.
    now rewrite reduce_subscriber, Nat.eqb_refl.
  - intros id. apply Hsub.
Qed.

(** X9.  The reducer never removes an entry: an id under which a state is
    stored has a state stored under it after any sequence of actions. *)
Theorem loaded_states_stay (state : State) actions id :
  (observableStateSelector id state <> None ->
   observableStateSelector id (reduceAll actions state) <> None)
  /\ (subscriberStateSelector id state <> None ->
      subscriberStateSelector id (reduceAll actions state) <> None).
Proof.
  revert state.
  induction actions as [|a actions IH]; intros state; simpl; [auto|].
  split; intros Hstored;
    [apply (proj1 (IH _)) | apply (proj2 (IH _))].
  - rewrite reduce_observable.
    destruct a as [[o|]|[s|]|e|]; try assumption.
    now destruct (Nat.eqb _ _).
  - rewrite reduce_subscriber.
    destruct a as [[o|]|[s|]|e|]; try assumption.
    now destruct (Nat.eqb _ _).
Qed.

(** X10.  Every state the store can hold keeps each observable and
    subscriber state under the id of its own ref: this holds for the initial
    state and the reducer preserves it. *)
Theorem states_keyed_by_ref actions :
  KeyedByRef observableRefId subscriberRefId
    (reduceAll actions (initialInsights ObservableState SubscriberState)).
Proof.
  assert (Hkeep : forall acts (st : State),
    KeyedByRef observableRefId subscriberRefId st ->
    KeyedByRef observableRefId subscriberRefId (reduceAll acts st)).
  { induction acts as [|a acts IH]; intros st Hst; simpl; [exact Hst|].
    apply IH. destruct Hst as [Ho Hs].
    destruct a as [[o|]|[s|]|e|]; split; simpl; auto; unfold assign;
      intros id x; destruct (Nat.eqb id _) eqn:Hid; auto;
      intros [= <-]; symmetry; now apply Nat.eqb_eq. }
  apply Hkeep. split; discriminate.
Qed.

(** X11.  The time is the time of the event selected last; loading states
    does not move it. *)
Theorem time_follows_selection (state : State) actions :
  (forall before event after,
     actions = before ++ EventSelected event :: after ->
     forallb (fun a => negb (selectsEvent a)) after = true ->
     time (reduceAll actions state) = eventTime event)
  /\ (forallb (fun a => negb (selectsEvent a)) actions = true ->
      time (reduceAll actions state) = time state).
Proof.
  assert (Hkeep : forall acts (st : State),
    forallb (fun a => negb (selectsEvent a)) acts = true ->
    time (reduceAll acts st) = time st).
  { induction acts as [|a acts IH]; intros st; simpl; [reflexivity|].
    intros [Ha Hacts]%andb_prop. rewrite IH by assumption.
    now destruct a as [[o|]|[s|]|e|]. }
  split.
  - intros before event after -> Hafter.
    rewrite fold_left_app. simpl. now rewrite Hkeep.
  - apply Hkeep.
Qed.

End InsightsSlice.

(** * Properties of the location label *)

Section LocationLabel.
Import LocationStrings.
Open Scope string_scope.

Lemma append_assoc (a b c : string) : (a ++ b) ++ c = a ++ (b ++ c).
Proof. induction a as [|x a IH]; simpl; [reflexivity | now rewrite IH]. Qed.

Lemma occurs_append c (a b : string) :
  occurs c (a ++ b) = occurs c a || occurs c b.
Proof.
  induction a as [|x a IH]; simpl; [reflexivity|].
  now rewrite IH, orb_assoc.
Qed.

(** What [split] gives: the string itself when the separator does not occur
    in it, otherwise at least two pieces, the last of which is what follows
    the last separator. *)
Lemma split_cases sep s :
  (occurs sep s = false /\ split sep s = [s])
  \/ exists dir base piece pieces,
       s = dir ++ String sep base
       /\ occurs sep base = false
       /\ split sep s = piece :: pieces
       /\ pieces <> []
       /\ last pieces "" = base.
Proof.
  induction s as [|c rest IH]; [now left|].
  simpl. destruct (Ascii.eqb c sep) eqn:Hc.
  - apply Ascii.eqb_eq in Hc as ->. right.
    destruct IH as [[Hno ->] | (dir & base & piece & pieces & -> & Hno & -> & Hne & Hlast)].
    + exists "", rest, "", [rest]. repeat split; auto. discriminate.
    + exists (String sep dir), base, "", (piece :: pieces).
      repeat split; auto; [discriminate|].
      destruct pieces; [contradiction | exact Hlast].
  - destruct IH as [[Hno ->] | (dir & base & piece & pieces & -> & Hno & -> & Hne & Hlast)].
    + left. now rewrite Hno.
    + right. exists (String c dir), base, (String c piece), pieces.
      repeat split; auto.
Qed.

Lemma digits_no_slash (u : Decimal.uint) :
  occurs "/" (NilEmpty.string_of_uint u) = false.
Proof. induction u; simpl; auto. Qed.

(** The last piece is free of the separator. *)
Lemma last_piece sep s :
  exists base, atLast (split sep s) = Some base /\ occurs sep base = false.
Proof.
  destruct (split_cases sep s)
    as [[Hno ->] | (dir & base & piece & pieces & _ & Hno & -> & Hne & Hlast)].
  - now exists s.
  - exists base. split; [|exact Hno].
    destruct pieces; [contradiction | now rewrite <- Hlast].
Qed.

(** X12.  For a location, the short label is the part of the file after its
    last slash (the whole file when there is none), a colon and the line;
    the long label is the file up to and including that slash, the short
    label, a colon and the column. *)
Theorem short_label_is_basename l :
  exists dir base,
    file l = dir ++ base
    /\ occurs "/" base = false
    /\ (dir = "" \/ exists d, dir = d ++ "/")
    /\ getLocationStrings {| generatedLocation := Some l |}
       = Some {| short := base ++ ":" ++ digits (line l);
                 long := dir ++ (base ++ ":" ++ digits (line l))
                         ++ ":" ++ digits (column l) |}.
Proof.
  unfold getLocationStrings. simpl.
  destruct (split_cases "/" (file l))
    as [[Hno Hsplit] | (dir & base & piece & pieces & Hfile & Hno & Hsplit & Hne & Hlast)].
  - exists "", (file l). rewrite Hsplit. simpl. repeat split; auto.
    now rewrite !append_assoc.
  - exists (dir ++ "/"), base. rewrite Hsplit, Hfile.
    repeat split; eauto.
    + now rewrite append_assoc.
    + destruct pieces as [|p ps]; [contradiction|].
      change (atLast (piece :: p :: ps)) with (Some (last (p :: ps) "")).
      rewrite Hlast. cbn [shown]. now rewrite !append_assoc.
Qed.

(** X13.  Labels exist when the location does, and a short label never
    contains a slash, whatever the file is. *)
Theorem short_label_has_no_slash locations :
  match getLocationStrings locations with
  | Some strings =>
      generatedLocation locations <> None
      /\ occurs "/" (short strings) = false
  | None => generatedLocation locations = None
  end.
Proof.
  destruct locations as [[l|]]; [|reflexivity].
  unfold getLocationStrings. simpl generatedLocation. cbv iota.
  destruct (last_piece "/" (file l)) as (base & -> & Hno).
  split; [discriminate|]. simpl short.
  rewrite !occurs_append, Hno. simpl. unfold digits.
  now rewrite digits_no_slash.
Qed.

End LocationLabel.

(** * Properties of a node of the subscribers graph *)

Section GraphNodes.
Import GraphNode.
Open Scope string_scope.

Lemma endsWith_suffix searched s :
  endsWith searched s = true <-> exists before, s = before ++ searched.
Proof.
  induction s as [|c rest IH].
  - cbn [endsWith]. rewrite orb_false_r, String.eqb_eq. split.
    + intros <-. now exists "".
    + intros [[|x before] Hs]; simpl in Hs; [auto | discriminate].
  - cbn [endsWith]. rewrite orb_true_iff, String.eqb_eq, IH. split.
    + intros [<- | [before ->]].
      * now exists "".
      * now exists (String c before).
    + intros [[|x before] Hs]; simpl in Hs.
      * now left.
      * injection Hs as -> ->. right. now exists before.
Qed.

(** X14.  A key makes a node a root exactly when it is some text between
    [<] and [>]: the two tests cannot be met by one and the same
    character. *)
Theorem root_key_shape key :
  isRootKey key = true <-> exists inner, key = "<" ++ inner ++ ">".
Proof.
  unfold isRootKey, startsWith. rewrite andb_true_iff, endsWith_suffix. split.
  - intros [Hstart [before ->]].
    destruct before as [|c before]; cbn [append String.prefix] in Hstart;
      destruct (ascii_dec _ _) as [Hc|]; try discriminate.
    subst c. now exists before.
  - intros [inner ->]. split.
    + cbn [append String.prefix].
      destruct (ascii_dec "<" "<"); [|contradiction].
      now destruct (inner ++ ">").
    + now exists (String "<" inner).
Qed.

Variables Target Located Coordinate : Type.

#[local] Abbreviation VM := (ViewModel Target Located).
#[local] Abbreviation Mouse := (MouseEvent Coordinate).

(** What [useCallback] keeps: a property of the view model of every render
    is a property of the captured one. *)
Lemma captured_among (D : Type) (deps : VM -> D) same (P : VM -> Prop)
    first later :
  P first -> Forall P later -> P (captured deps same first later).
Proof.
  unfold captured. intros Hfirst Hlater. revert first Hfirst.
  induction Hlater as [|vm later Hvm _ IH]; intros first Hfirst; simpl.
  - exact Hfirst.
  - apply IH. unfold useCallback. now destruct (same _ _).
Qed.

(** The captured view model has the dependencies of the latest render. *)
Lemma captured_menu_deps (first : VM) later :
  menuDeps (captured menuDeps sameMenuDeps first later)
  = menuDeps (latest first later).
Proof.
  unfold captured, latest.
  destruct (exists_last (l := first :: later)) as (l & vm & Hl);
    [discriminate|].
  destruct later as [|v later _] using rev_ind; [reflexivity|].
  rewrite fold_left_app, last_last. simpl. unfold useCallback at 1.
  destruct (sameMenuDeps _ _) eqn:Hsame; [|reflexivity].
  unfold sameMenuDeps in Hsame.
  apply andb_prop in Hsame as [Hroot Hexpanded].
  apply Bool.eqb_prop in Hroot, Hexpanded.
  destruct (menuDeps (fold_left _ later first)), (menuDeps v).
  simpl in *. congruence.
Qed.

(** X15.  The context menu that a right click opens, after any number of
    renders: it opens at the pointer and never offers both Expand and
    Collapse.  The handler is memoized on the root and expanded flags only,
    so these two are the current ones (Expand only on a node that is not
    expanded, Collapse only on an expanded one, Focus never on a root) while
    the caller flag is the one of an earlier render.  When the node was a
    caller at every render or at none, the entries are those of the current
    view model: none of the five for a caller; otherwise exactly one of
    Expand and Collapse, Expand all, Collapse all, and Focus unless the node
    is a root. *)
Theorem menu_entries (first : VM) later (event : Mouse) :
  let menu := contextMenuOpened first later event in
  let vm := latest first later in
  open menu = true
  /\ position menu = Some {| top := clientY event; left := clientX event |}
  /\ rendered menu DoExpand && rendered menu DoCollapse = false
  /\ (rendered menu DoExpand = true -> isExpanded vm = false)
  /\ (rendered menu DoCollapse = true -> isExpanded vm = true)
  /\ (rendered menu Focus = true -> isRoot vm = false)
  /\ (Forall (fun v => isCaller v = isCaller first) later ->
      if isCaller vm then forall entry, rendered menu entry = false
      else xorb (rendered menu DoExpand) (rendered menu DoCollapse) = true
           /\ rendered menu DoExpand = negb (isExpanded vm)
           /\ rendered menu DoExpandAll = true
           /\ rendered menu DoCollapseAll = true
           /\ rendered menu Focus = negb (isRoot vm)).
Proof.
  intros menu vm. subst menu vm. unfold contextMenuOpened.
  pose proof (captured_menu_deps first later) as Hdeps.
  set (held := captured menuDeps sameMenuDeps first later) in *.
  assert (Hcaller :
    Forall (fun v => isCaller v = isCaller first) later ->
    isCaller held = isCaller (latest first later)).
  { intros Hlater.
    assert (Hheld : isCaller held = isCaller first)
      by (apply captured_among; [reflexivity | exact Hlater]).
    rewrite Hheld. unfold latest.
    destruct later as [|v later _] using rev_ind; [reflexivity|].
    rewrite last_last. apply Forall_app in Hlater as [_ Hv].
    now inversion Hv. }
  unfold menuDeps in Hdeps. injection Hdeps as Hroot Hexpanded.
  unfold rendered. simpl. rewrite <- Hroot, <- Hexpanded.
  repeat split.
  - now destruct (isCaller held), (isExpanded held).
  - now destruct (isCaller held), (isExpanded held).
  - now destruct (isCaller held), (isExpanded held).
  - now destruct (isCaller held), (isRoot held).
  - intros Hlater. rewrite <- (Hcaller Hlater).
    destruct (isCaller held), (isExpanded held), (isRoot held); simpl;
      repeat split; auto; intros []; reflexivity.
Qed.

End GraphNodes.

Section GraphNodeOnDemo.
Import GraphNode.
Open Scope string_scope.

(** A node rendered expanded and then collapsed: the handler is renewed and
    offers Expand. *)
Lemma menu_entries_witness :
  let was := {| rootTarget := 1; rootTargetKey := "<1>"; target := 2;
                targetKey := "<1>.2"; location := @None unit;
                isRoot := false; isCaller := false; isExpanded := true |} in
  let now_ := {| rootTarget := 1; rootTargetKey := "<1>"; target := 2;
                 targetKey := "<1>.2"; location := @None unit;
                 isRoot := false; isCaller := false; isExpanded := false |} in
  let event := {| clientX := 10; clientY := 20;
                  ctrlKey := false; shiftKey := false |} in
  rendered (contextMenuOpened was [now_] event) DoExpand = true
  /\ rendered (contextMenuOpened was [now_] event) DoCollapse = false
  /\ rendered (contextMenuOpened was [now_] event) Focus = true.
Proof.
  intros was now_ event.
  destruct (@menu_entries nat unit nat was [now_] event)
    as (_ & _ & _ & _ & _ & _ & Hsame).
  destruct (Hsame ltac:(repeat constructor)) as (Hone & Hexpand & _ & _ & Hfocus).
  rewrite Hexpand in Hone. rewrite Hexpand, Hfocus.
  repeat split; now destruct (rendered _ DoCollapse).
Defined.

End GraphNodeOnDemo.

(** * The further properties on the demo registry *)

Section MoreOnDemo.
Import Demo.
Open Scope string_scope.

Lemma pass_outcomes_witness :
  routerReaction matcher (at_ ["a"]) (Navigate ["a"; "x"])
  = Emits [InterceptEnterRedirect ["a"]]
  /\ ([InterceptEnterRedirect ["a"]] = []
      \/ (exists phase v,
            [InterceptEnterRedirect ["a"]] = [redirectOf phase v]
            /\ isTrigger (Navigate ["a"; "x"]) = true)
      \/ (exists u,
            triggerUrl (Navigate ["a"; "x"]) = Some u
            /\ [InterceptEnterRedirect ["a"]]
               = (produced matcher Leave (at_ ["a"])
                    (routes (router (at_ ["a"])))
                  ++ NavigationComplete u (matchPath matcher (path u))
                  :: produced matcher Enter (at_ ["a"])
                       (matchPath matcher (path u)))%list)).
Proof.
  split; [reflexivity|].
  exact (@pass_outcomes types matcher (at_ ["a"]) (Navigate ["a"; "x"])
           [InterceptEnterRedirect ["a"]] eq_refl).
Defined.

Lemma leave_verdict_for_all_targets_witness :
  GuardAnswers matcher Leave (at_ ["f"]) ["a"] 6 [] (Returned (GBool false))
  /\ routerReaction matcher (at_ ["f"]) (Navigate ["g"])
     = pipeline matcher (at_ ["f"]) ["a"].
Proof.
  assert (Hanswer : GuardAnswers matcher Leave (at_ ["f"]) ["a"] 6 []
                      (Returned (GBool false))).
  { split; [split; [discriminate|] | reflexivity].
    exists [], []. split; reflexivity. }
  split; [exact Hanswer|].
  refine (proj1 (@leave_verdict_for_all_targets types matcher (at_ ["f"])
                   (["a"] : list string) 6 [] (Returned (GBool false))
                   Hanswer _ (Navigate ["g"]) (["g"] : list string) eq_refl)).
  discriminate.
Defined.


Lemma renavigation_keeps_state_witness :
  router (fold_left (storeReducer log)
            [Other "leftA"; NavigationComplete ["a"] [1]; Other "enteredA"]
            (at_ ["a"]))
  = router (at_ ["a"]).
Proof.
  exact (@renavigation_keeps_state types matcher log (at_ ["a"])
           (Navigate ["a"]) _ demo_hooks_never_commit eq_refl eq_refl
           eq_refl).
Defined.

Lemma run_keeps_consistent_witness :
  Consistent matcher (router fresh)
  /\ match snd (passes matcher log 3 backToBack) with
     | Settled m' | Unsettled m' => Consistent matcher (router (mStore m'))
     | Failed _ store => Consistent matcher (router store)
     end.
Proof.
  split; [reflexivity|].
  exact (@run_keeps_consistent types matcher log 3 backToBack
           demo_hooks_never_commit eq_refl).
Defined.

Lemma leave_redirect_never_settles_witness :
  exists m',
    passes matcher log 3 (queue (at_ ["a"; "k"]) [Navigate ["a"]])
    = ([Navigate ["a"]; InterceptLeaveRedirect ["c"];
        InterceptLeaveRedirect ["c"]], Unsettled m')
    /\ router (mStore m') = router (at_ ["a"; "k"])
    /\ buffer m' = [InterceptLeaveRedirect ["c"]].
Proof.
  refine (@leave_redirect_never_settles types matcher log (at_ ["a"; "k"])
            (["c"] : list string) _ 2 (Navigate ["a"]) (["a"] : list string)
            eq_refl).
  intros [r a] Hsame. simpl in Hsame. subst r.
  exists 9, [@Other types "leftA"].
  split; [split; [discriminate|] | reflexivity].
  exists [1], []. split; reflexivity.
Defined.

End MoreOnDemo.

(** * The insights slice on a small store

    States are pairs of a ref id and a label, events are their times. *)

Section InsightsOnDemo.
Import Insights.
Open Scope string_scope.

#[local] Abbreviation labelled := (nat * string)%type.
#[local] Abbreviation reduceDemo :=
  (insightsReducer (@fst nat string) (@fst nat string) (fun t : nat => t)).
#[local] Abbreviation emptyDemo := (initialInsights labelled labelled).

Lemma load_then_select_witness :
  observableStateSelector 3
    (reduceDemo emptyDemo (ObservableStateLoaded (Some (3, "of"))))
  = Some (3, "of")
  /\ observableStateSelector 4
       (reduceDemo emptyDemo (ObservableStateLoaded (Some (3, "of"))))
     = observableStateSelector 4 emptyDemo.
Proof.
  destruct (proj1 (@load_then_select labelled labelled nat
                     (@fst nat string) (@fst nat string) (fun t => t)
                     emptyDemo) (3, "of"))
    as (Hstored & Hothers & _).
  split; [exact Hstored|].
  apply Hothers. simpl. lia.
Defined.

Lemma last_load_wins_witness :
  observableStateSelector 3
    (fold_left reduceDemo
       [ObservableStateLoaded (Some (3, "old")); EventSelected 7;
        ObservableStateLoaded (Some (3, "new"));
        SubscriberStateLoaded (Some (3, "sub"))]
       emptyDemo)
  = Some (3, "new").
Proof.
  refine (proj1 (@last_load_wins labelled labelled nat
                   (@fst nat string) (@fst nat string) (fun t => t)
                   emptyDemo _)
            [ObservableStateLoaded (Some (3, "old")); EventSelected 7]
            (3, "new") [SubscriberStateLoaded (Some (3, "sub"))] _ _);
    reflexivity.
Defined.

Lemma loaded_states_stay_witness :
  observableStateSelector 3
    (fold_left reduceDemo
       [EventSelected 7; ObservableStateLoaded None;
        SubscriberStateLoaded (Some (3, "sub"))]
       (reduceDemo emptyDemo (ObservableStateLoaded (Some (3, "of")))))
  <> None.
Proof.
  refine (proj1 (@loaded_states_stay labelled labelled nat
                   (@fst nat string) (@fst nat string) (fun t => t)
                   (reduceDemo emptyDemo
                      (ObservableStateLoaded (Some (3, "of"))))
                   [EventSelected 7; ObservableStateLoaded None;
                    SubscriberStateLoaded (Some (3, "sub"))] 3) _).
  simpl. discriminate.
Defined.

Lemma time_follows_selection_witness :
  time (fold_left reduceDemo
          [EventSelected 2; EventSelected 7;
           ObservableStateLoaded (Some (3, "of"))]
          emptyDemo)
  = 7.
Proof.
  refine (proj1 (@time_follows_selection labelled labelled nat
                   (@fst nat string) (@fst nat string) (fun t => t)
                   emptyDemo _)
            [EventSelected 2] 7 [ObservableStateLoaded (Some (3, "of"))]
            _ _); reflexivity.
Defined.

End InsightsOnDemo.
